(** * The game-info cache (UI/GameInfoCache.cpp)

    A shallow embedding of [GameInfoCache] and of its loader work item
    [GameInfoWorkItem].  The cache maps a game path to a pointer to a
    [GameInfo]; pointers are addresses into an explicit store, so that the
    [delete info] of the escalation path, the aliasing between the map and
    the queued work items, and the [Texture] objects created and deleted by
    the decode step are all visible in the model.

    The collaborators whose sources are outside this file (PBP reader,
    block device and ISO file system, SFO parser, PNG loader), the
    allocator of Records, which may hand the storage of a deleted Record
    out again, and the conversion of a double to a float are the fields of
    the record [Collaborators], over which everything is stated. *)

From Stdlib Require Import ZArith String Ascii.
From Stdlib Require Import Init.Byte.
From stdpp Require Import base option list gmap strings fin_maps fin_sets relations.

Set Warnings "-clear-no-such-hyp".

Open Scope string_scope.
Open Scope list_scope.

(** ** Plain data *)

Abbreviation bytes := (list byte).
Abbreviation addr := nat.      (* a [GameInfo *] *)
Abbreviation texptr := nat.    (* a [Texture *] *)
Abbreviation time := Z.        (* a reading of [time_now_d()]; only stored and
                                  compared here, never computed with *)

Inductive EmuFileType :=
| FILETYPE_UNKNOWN
| FILETYPE_PSP_PBP
| FILETYPE_PSP_ELF
| FILETYPE_PSP_ISO.

#[global] Instance EmuFileType_eq_dec : EqDecision EmuFileType.
Proof. solve_decision. Defined.

Inductive PBPSubFile := PBP_PARAM_SFO | PBP_ICON0_PNG | PBP_PIC1_PNG.

(** Modelled from the spec: [ParamSFOData] (Core/ELF/ParamSFO.h is not among
    the sources), "a flat string to string key/value table parsed from an
    external binary metadata blob".  [GetValueString] of a missing key is
    the empty string. *)
Abbreviation ParamSFOData := (gmap string string).

Definition GetValueString (sfo : ParamSFOData) (key : string) : string :=
  default "" (sfo !! key).

(** Modelled from the spec: [startsWith] and [endsWith] of base/stringutil.h
    (not among the sources): "path starts with the prefix", "path ending
    in". *)
Definition startsWith (str what : string) : bool :=
  if (String.length str <? String.length what)%nat then false
  else String.eqb (substring 0 (String.length what) str) what.

Definition endsWith (str what : string) : bool :=
  if (String.length str <? String.length what)%nat then false
  else String.eqb
         (substring (String.length str - String.length what)
                    (String.length what) str) what.

(** ** The record [GameInfo] *)

Record GameInfo := mkGameInfo {
  title : string;
  fileType : EmuFileType;
  paramSFO : ParamSFOData;
  iconTextureData : bytes;
  iconTexture : option texptr;
  pic0TextureData : bytes;
  pic0Texture : option texptr;
  pic1TextureData : bytes;
  pic1Texture : option texptr;
  wantBG : bool;
  lastAccessedTime : time;
  timeIconWasLoaded : time;
  timePic0WasLoaded : time;
  timePic1WasLoaded : time
}.

(** Modelled from the spec: the constructor [GameInfo()] (GameInfo.h is not
    among the sources).  A new Record is unpopulated: "caller observes an
    empty Record until the background task completes", every slot [Empty].
    The scalar fields the constructor may leave alone are given the value
    0 ([wantBG] is assigned right after construction). *)
Definition new_GameInfo : GameInfo :=
  {| title := ""; fileType := FILETYPE_UNKNOWN; paramSFO := ∅;
     iconTextureData := []; iconTexture := None;
     pic0TextureData := []; pic0Texture := None;
     pic1TextureData := []; pic1Texture := None;
     wantBG := false; lastAccessedTime := 0%Z;
     timeIconWasLoaded := 0%Z; timePic0WasLoaded := 0%Z;
     timePic1WasLoaded := 0%Z |}.

(** Field assignments [info->f = v]. *)
Definition set_title (v : string) (g : GameInfo) : GameInfo :=
  mkGameInfo v (fileType g) (paramSFO g) (iconTextureData g) (iconTexture g)
    (pic0TextureData g) (pic0Texture g) (pic1TextureData g) (pic1Texture g)
    (wantBG g) (lastAccessedTime g) (timeIconWasLoaded g)
    (timePic0WasLoaded g) (timePic1WasLoaded g).
Definition set_fileType (v : EmuFileType) (g : GameInfo) : GameInfo :=
  mkGameInfo (title g) v (paramSFO g) (iconTextureData g) (iconTexture g)
    (pic0TextureData g) (pic0Texture g) (pic1TextureData g) (pic1Texture g)
    (wantBG g) (lastAccessedTime g) (timeIconWasLoaded g)
    (timePic0WasLoaded g) (timePic1WasLoaded g).
Definition set_paramSFO (v : ParamSFOData) (g : GameInfo) : GameInfo :=
  mkGameInfo (title g) (fileType g) v (iconTextureData g) (iconTexture g)
    (pic0TextureData g) (pic0Texture g) (pic1TextureData g) (pic1Texture g)
    (wantBG g) (lastAccessedTime g) (timeIconWasLoaded g)
    (timePic0WasLoaded g) (timePic1WasLoaded g).
Definition set_iconTextureData (v : bytes) (g : GameInfo) : GameInfo :=
  mkGameInfo (title g) (fileType g) (paramSFO g) v (iconTexture g)
    (pic0TextureData g) (pic0Texture g) (pic1TextureData g) (pic1Texture g)
    (wantBG g) (lastAccessedTime g) (timeIconWasLoaded g)
    (timePic0WasLoaded g) (timePic1WasLoaded g).
Definition set_iconTexture (v : option texptr) (g : GameInfo) : GameInfo :=
  mkGameInfo (title g) (fileType g) (paramSFO g) (iconTextureData g) v
    (pic0TextureData g) (pic0Texture g) (pic1TextureData g) (pic1Texture g)
    (wantBG g) (lastAccessedTime g) (timeIconWasLoaded g)
    (timePic0WasLoaded g) (timePic1WasLoaded g).
Definition set_pic0TextureData (v : bytes) (g : GameInfo) : GameInfo :=
  mkGameInfo (title g) (fileType g) (paramSFO g) (iconTextureData g)
    (iconTexture g) v (pic0Texture g) (pic1TextureData g) (pic1Texture g)
    (wantBG g) (lastAccessedTime g) (timeIconWasLoaded g)
    (timePic0WasLoaded g) (timePic1WasLoaded g).
Definition set_pic0Texture (v : option texptr) (g : GameInfo) : GameInfo :=
  mkGameInfo (title g) (fileType g) (paramSFO g) (iconTextureData g)
    (iconTexture g) (pic0TextureData g) v (pic1TextureData g) (pic1Texture g)
    (wantBG g) (lastAccessedTime g) (timeIconWasLoaded g)
    (timePic0WasLoaded g) (timePic1WasLoaded g).
Definition set_pic1TextureData (v : bytes) (g : GameInfo) : GameInfo :=
  mkGameInfo (title g) (fileType g) (paramSFO g) (iconTextureData g)
    (iconTexture g) (pic0TextureData g) (pic0Texture g) v (pic1Texture g)
    (wantBG g) (lastAccessedTime g) (timeIconWasLoaded g)
    (timePic0WasLoaded g) (timePic1WasLoaded g).
Definition set_pic1Texture (v : option texptr) (g : GameInfo) : GameInfo :=
  mkGameInfo (title g) (fileType g) (paramSFO g) (iconTextureData g)
    (iconTexture g) (pic0TextureData g) (pic0Texture g) (pic1TextureData g) v
    (wantBG g) (lastAccessedTime g) (timeIconWasLoaded g)
    (timePic0WasLoaded g) (timePic1WasLoaded g).
Definition set_wantBG (v : bool) (g : GameInfo) : GameInfo :=
  mkGameInfo (title g) (fileType g) (paramSFO g) (iconTextureData g)
    (iconTexture g) (pic0TextureData g) (pic0Texture g) (pic1TextureData g)
    (pic1Texture g) v (lastAccessedTime g) (timeIconWasLoaded g)
    (timePic0WasLoaded g) (timePic1WasLoaded g).
Definition set_lastAccessedTime (v : time) (g : GameInfo) : GameInfo :=
  mkGameInfo (title g) (fileType g) (paramSFO g) (iconTextureData g)
    (iconTexture g) (pic0TextureData g) (pic0Texture g) (pic1TextureData g)
    (pic1Texture g) (wantBG g) v (timeIconWasLoaded g)
    (timePic0WasLoaded g) (timePic1WasLoaded g).
Definition set_timeIconWasLoaded (v : time) (g : GameInfo) : GameInfo :=
  mkGameInfo (title g) (fileType g) (paramSFO g) (iconTextureData g)
    (iconTexture g) (pic0TextureData g) (pic0Texture g) (pic1TextureData g)
    (pic1Texture g) (wantBG g) (lastAccessedTime g) v
    (timePic0WasLoaded g) (timePic1WasLoaded g).
Definition set_timePic0WasLoaded (v : time) (g : GameInfo) : GameInfo :=
  mkGameInfo (title g) (fileType g) (paramSFO g) (iconTextureData g)
    (iconTexture g) (pic0TextureData g) (pic0Texture g) (pic1TextureData g)
    (pic1Texture g) (wantBG g) (lastAccessedTime g) (timeIconWasLoaded g)
    v (timePic1WasLoaded g).
Definition set_timePic1WasLoaded (v : time) (g : GameInfo) : GameInfo :=
  mkGameInfo (title g) (fileType g) (paramSFO g) (iconTextureData g)
    (iconTexture g) (pic0TextureData g) (pic0Texture g) (pic1TextureData g)
    (pic1Texture g) (wantBG g) (lastAccessedTime g) (timeIconWasLoaded g)
    (timePic0WasLoaded g) v.

Arguments set_title _ _ /.
Arguments set_fileType _ _ /.
Arguments set_paramSFO _ _ /.
Arguments set_iconTextureData _ _ /.
Arguments set_iconTexture _ _ /.
Arguments set_pic0TextureData _ _ /.
Arguments set_pic0Texture _ _ /.
Arguments set_pic1TextureData _ _ /.
Arguments set_pic1Texture _ _ /.
Arguments set_wantBG _ _ /.
Arguments set_lastAccessedTime _ _ /.
Arguments set_timeIconWasLoaded _ _ /.
Arguments set_timePic0WasLoaded _ _ /.
Arguments set_timePic1WasLoaded _ _ /.

(** The three artifact slots, each a raw buffer and a decoded handle. *)
Inductive Slot := Icon | Pic0 | Pic1.

#[global] Instance Slot_eq_dec : EqDecision Slot.
Proof. solve_decision. Defined.

Definition slot_data (sl : Slot) (g : GameInfo) : bytes :=
  match sl with
  | Icon => iconTextureData g
  | Pic0 => pic0TextureData g
  | Pic1 => pic1TextureData g
  end.

Definition slot_texture (sl : Slot) (g : GameInfo) : option texptr :=
  match sl with
  | Icon => iconTexture g
  | Pic0 => pic0Texture g
  | Pic1 => pic1Texture g
  end.

Definition set_slot_data (sl : Slot) (v : bytes) : GameInfo -> GameInfo :=
  match sl with
  | Icon => set_iconTextureData v
  | Pic0 => set_pic0TextureData v
  | Pic1 => set_pic1TextureData v
  end.

(** The states of a slot as the spec names them. *)
Definition slot_Empty (sl : Slot) (g : GameInfo) : Prop :=
  slot_data sl g = [] ∧ slot_texture sl g = None.
Definition slot_Decoded (sl : Slot) (g : GameInfo) : Prop :=
  slot_data sl g = [] ∧ is_Some (slot_texture sl g).
Definition slot_RawBytes (sl : Slot) (g : GameInfo) : Prop :=
  slot_data sl g ≠ [] ∧ slot_texture sl g = None.

(** [contents->resize(n); fs->ReadFile(handle, contents->data(), n)]: the
    buffer is resized (kept prefix, zero fill) and the bytes read are
    written over its beginning. *)
Definition resize_and_read (n : nat) (data old : bytes) : bytes :=
  let got := take n data in
  got ++ drop (length got) (resize n x00 old).

(** ** The loader task as a sequence of critical sections

    [GameInfoWorkItem::run] takes and releases the Record's lock once per
    field.  Its body is therefore kept as a small program: each [Do] is one
    write to the Record (one critical section, or the unlocked assignment of
    [fileType]), [IfWantBG] is the read of [info_->wantBG]. *)

Inductive action :=
| SetFileType (t : EmuFileType)
| LoadParamSFO (data : bytes)
| GetSubFileAsString (sl : Slot) (data : bytes)
| ReadFileInto (sl : Slot) (n : nat) (data : bytes).

Inductive prog :=
| Done
| Do (a : action) (k : prog)
| IfWantBG (kt kf : prog).

(** ** The state: the cache object and the store its pointers live in *)

Record GameInfoWorkItem := { gamePath_ : string; item_info_ : addr }.

(** The [Texture] objects: every one created by [new Texture()], and those
    among them that were deleted. *)
Record Textures := mkTextures { created : gset texptr; deleted : gset texptr }.

Definition live (tx : Textures) : gset texptr := created tx ∖ deleted tx.

Definition new_Texture (tx : Textures) : texptr * Textures :=
  let t := fresh (created tx) in
  (t, mkTextures ({[t]} ∪ created tx) (deleted tx)).

(** [delete t]; deleting a null pointer does nothing. *)
Definition delete_Texture (t : option texptr) (tx : Textures) : Textures :=
  match t with
  | Some t => mkTextures (created tx) ({[t]} ∪ deleted tx)
  | None => tx
  end.

Record State := mkState {
  info_ : gmap string addr;            (* std::map<std::string, GameInfo *> *)
  gameInfoWQ_ : list GameInfoWorkItem; (* queued work items, not yet started *)
  workers : list (addr * prog);        (* loader runs in progress *)
  heap : gmap addr GameInfo;           (* storage of every GameInfo created *)
  freed : gset addr;                   (* storage deleted and not handed out
                                          again since *)
  tex : Textures
}.

Definition init : State := mkState ∅ [] [] ∅ ∅ (mkTextures ∅ ∅).

Definition set_info_ (v : gmap string addr) (s : State) : State :=
  mkState v (gameInfoWQ_ s) (workers s) (heap s) (freed s) (tex s).
Definition set_gameInfoWQ_ (v : list GameInfoWorkItem) (s : State) : State :=
  mkState (info_ s) v (workers s) (heap s) (freed s) (tex s).
Definition set_workers (v : list (addr * prog)) (s : State) : State :=
  mkState (info_ s) (gameInfoWQ_ s) v (heap s) (freed s) (tex s).
Definition set_heap (v : gmap addr GameInfo) (s : State) : State :=
  mkState (info_ s) (gameInfoWQ_ s) (workers s) v (freed s) (tex s).
Definition set_freed (v : gset addr) (s : State) : State :=
  mkState (info_ s) (gameInfoWQ_ s) (workers s) (heap s) v (tex s).
Definition set_tex (v : Textures) (s : State) : State :=
  mkState (info_ s) (gameInfoWQ_ s) (workers s) (heap s) (freed s) v.

(** A write through a pointer [a] outside any critical section that touches
    textures.  The storage behind a deleted Record is still there, so the
    write of a loader that outlived its Record lands in it, or in the Record
    that has taken the storage over since. *)
Definition update (a : addr) (f : GameInfo -> GameInfo) (s : State) : State :=
  set_heap (alter f a (heap s)) s.

(** [{ lock_guard lock(info->lock); body }] on the Record at [a]: the body
    reads and writes that Record and creates or deletes textures.  (A
    pointer to storage that was never allocated is not followed; the map
    never holds one, see [map_pointers_valid].) *)
Definition locked (a : addr)
  (body : GameInfo -> Textures -> GameInfo * Textures) (s : State) : State :=
  match heap s !! a with
  | Some info =>
      let '(info', tx) := body info (tex s) in
      set_tex tx (set_heap (<[a := info']> (heap s)) s)
  | None => s
  end.

(** [delete info].  (GameInfo.h is not among the sources; its destructor
    is taken to release nothing but the storage of the Record.) *)
Definition delete_GameInfo (a : addr) (s : State) : State :=
  set_freed ({[a]} ∪ freed s) s.

(** The storage of the Records that were created and not deleted. *)
Definition allocated (s : State) : gset addr := dom (heap s) ∖ freed s.

(** The readings of [time_now_d()] one call of [GetInfo] takes, in the
    order of the source. *)
Record Clock := { now_icon : time; now_pic0 : time; now_pic1 : time;
                  now_access : time }.

(** ** External collaborators

    None of these is defined in GameInfoCache.cpp; the cache only calls
    them (the last two implicitly, by [new GameInfo()] and by returning a
    double from a function of type float).  File contents are taken to be
    fixed while the cache runs. *)

Record PSPFileInfo := { exists_ : bool; size : nat }.

Record Collaborators := {
  (* PBPReader pbp(path): IsValid(), and the bytes of a sub-file;
     GetSubFileSize is the length of those bytes *)
  PBP_IsValid : string -> bool;
  PBP_GetSubFile : string -> PBPSubFile -> bytes;
  (* ParamSFOData::ReadSFO(data, size), acting on the table *)
  ReadSFO : bytes -> ParamSFOData -> ParamSFOData;
  (* constructBlockDevice(path), null when it fails *)
  BlockDevice : Type;
  constructBlockDevice : string -> option BlockDevice;
  (* ISOFileSystem umd(&handles, bd, "/PSP_GAME") *)
  GetFileInfo : BlockDevice -> string -> PSPFileInfo;
  OpenFile : BlockDevice -> string -> nat;          (* 0: could not open *)
  ReadFile : BlockDevice -> nat -> nat -> bytes;    (* handle, size *)
  (* Texture::LoadPNG(data, size, false) *)
  LoadPNG : bytes -> bool;
  (* operator new for a [GameInfo]: the storage the allocator picks in a
     given state of the cache.  It may be the storage of a Record that was
     deleted. *)
  operator_new : State -> addr;
  (* the conversion of a double to the float that [priority()] returns *)
  double_to_float : time -> time
}.

Section Cache.

Variable env : Collaborators.

Definition apply_action (a : action) (g : GameInfo) : GameInfo :=
  match a with
  | SetFileType t => set_fileType t g
  | LoadParamSFO data =>
      let g1 := set_paramSFO (ReadSFO env data (paramSFO g)) g in
      set_title (GetValueString (paramSFO g1) "TITLE") g1
  | GetSubFileAsString sl data => set_slot_data sl data g
  | ReadFileInto sl n data =>
      set_slot_data sl (resize_and_read n data (slot_data sl g)) g
  end.

(** [ReadFileToString(fs, filename, contents, mtx)]: [None] when it returns
    false (the contents are then untouched), otherwise the size and the
    bytes handed to [resize_and_read]. *)
Definition ReadFileToString (bd : BlockDevice env) (filename : string)
  : option (nat * bytes) :=
  let info := GetFileInfo env bd filename in
  if negb (exists_ info) then None
  else
    let handle := OpenFile env bd filename in
    if (handle =? 0)%nat then None
    else Some (size info, ReadFile env bd handle (size info)).

(** A read into a field of the Record, under its lock. *)
Definition read_into (bd : BlockDevice env) (filename : string) (sl : Slot)
  (k : prog) : prog :=
  match ReadFileToString bd filename with
  | Some (n, data) => Do (ReadFileInto sl n data) k
  | None => k
  end.

(** [pbp.GetSubFileAsString(f, &field)] guarded by [GetSubFileSize(f) > 0]. *)
Definition pbp_into (gamePath : string) (f : PBPSubFile) (sl : Slot)
  (k : prog) : prog :=
  let data := PBP_GetSubFile env gamePath f in
  if (0 <? length data)%nat then Do (GetSubFileAsString sl data) k else k.

(** [GameInfoWorkItem::run]. *)
Definition run (gamePath : string) : prog :=
  if startsWith gamePath "ms0:/PSP/GAME" then Done
  else if endsWith gamePath ".PBP" then
    if negb (PBP_IsValid env gamePath) then Done
    else
      Do (SetFileType FILETYPE_PSP_PBP)
     (Do (LoadParamSFO (PBP_GetSubFile env gamePath PBP_PARAM_SFO))
     (pbp_into gamePath PBP_ICON0_PNG Icon
     (IfWantBG (pbp_into gamePath PBP_PIC1_PNG Pic1 Done) Done)))
  else if endsWith gamePath ".elf" || endsWith gamePath ".prx" then
    Do (SetFileType FILETYPE_PSP_ELF) Done
  else
    Do (SetFileType FILETYPE_PSP_ISO)
      match constructBlockDevice env gamePath with
      | None => Done
      | Some bd =>
          let sfo k :=
            match ReadFileToString bd "/PSP_GAME/PARAM.SFO" with
            | Some (n, data) => Do (LoadParamSFO (resize_and_read n data [])) k
            | None => k
            end in
          sfo
         (read_into bd "/PSP_GAME/ICON0.PNG" Icon
         (IfWantBG
            (read_into bd "/PSP_GAME/PIC0.PNG" Pic0
            (read_into bd "/PSP_GAME/PIC1.PNG" Pic1 Done))
            Done))
      end.

(** One step of a running loader on its Record, and the whole run. *)
Definition prog_step (p : prog) (g : GameInfo) : option (prog * GameInfo) :=
  match p with
  | Done => None
  | Do a k => Some (k, apply_action a g)
  | IfWantBG kt kf => Some (if wantBG g then kt else kf, g)
  end.

Fixpoint exec (p : prog) (g : GameInfo) : GameInfo :=
  match p with
  | Done => g
  | Do a k => exec k (apply_action a g)
  | IfWantBG kt kf => if wantBG g then exec kt g else exec kf g
  end.

(** ** [GameInfoCache] *)

(** The three decode blocks of [GetInfo], each the body of one critical
    section. *)
Definition decode_icon (now : time) (info : GameInfo) (tx : Textures)
  : GameInfo * Textures :=
  if (0 <? length (iconTextureData info))%nat then
    let '(t, tx) := new_Texture tx in
    let info := set_iconTexture (Some t) info in
    let '(info, tx) :=
      if LoadPNG env (iconTextureData info)
      then (set_timeIconWasLoaded now info, tx)
      else (set_iconTexture None info, delete_Texture (iconTexture info) tx) in
    (set_iconTextureData [] info, tx)
  else (info, tx).

Definition decode_pic0 (now : time) (info : GameInfo) (tx : Textures)
  : GameInfo * Textures :=
  if (0 <? length (pic0TextureData info))%nat then
    let '(t, tx) := new_Texture tx in
    let info := set_pic0Texture (Some t) info in
    let '(info, tx) :=
      if LoadPNG env (pic0TextureData info)
      then (set_timePic0WasLoaded now info, tx)
      else (set_iconTexture None info, delete_Texture (iconTexture info) tx) in
    (set_pic0TextureData [] info, tx)
  else (info, tx).

Definition decode_pic1 (now : time) (info : GameInfo) (tx : Textures)
  : GameInfo * Textures :=
  if (0 <? length (pic1TextureData info))%nat then
    let '(t, tx) := new_Texture tx in
    let info := set_pic1Texture (Some t) info in
    let '(info, tx) :=
      if LoadPNG env (pic1TextureData info)
      then (set_timePic1WasLoaded now info, tx)
      else (set_iconTexture None info, delete_Texture (iconTexture info) tx) in
    (set_pic1TextureData [] info, tx)
  else (info, tx).

(** The decode step on one Record value: the three blocks in order. *)
Definition decode (clk : Clock) (info : GameInfo) (tx : Textures)
  : GameInfo * Textures :=
  let '(info, tx) := decode_icon (now_icon clk) info tx in
  let '(info, tx) := decode_pic0 (now_pic0 clk) info tx in
  decode_pic1 (now_pic1 clk) info tx.

(** [new GameInfo()]: the storage of the new Record.  The allocator never
    hands out the storage of a Record that is still allocated (an answer of
    [operator_new] that is one is replaced by unused storage); it is free to
    hand out the storage of a deleted Record again. *)
Definition new_storage (s : State) : addr :=
  let a := operator_new env s in
  if decide (a ∈ allocated s) then fresh (dom (heap s)) else a.

(** The code after the label [again].  The constructor overwrites whatever
    the storage held. *)
Definition again (gamePath : string) (wantBG' : bool) (s : State)
  : addr * State :=
  let info := new_storage s in
  let s := set_freed (freed s ∖ {[info]}) s in
  let s := set_heap (<[info := set_wantBG wantBG' new_GameInfo]> (heap s)) s in
  let item := {| gamePath_ := gamePath; item_info_ := info |} in
  let s := set_gameInfoWQ_ (gameInfoWQ_ s ++ [item]) s in
  (info, set_info_ (<[gamePath := info]> (info_ s)) s).

(** [GameInfoCache::GetInfo].  The inner [None] is a map entry that points
    to storage never allocated, which no state of the cache has
    ([map_pointers_valid]). *)
Definition GetInfo (gamePath : string) (wantBG' : bool) (clk : Clock)
  (s : State) : addr * State :=
  match info_ s !! gamePath with
  | Some info =>
      match heap s !! info with
      | Some g =>
          if negb (wantBG g) && wantBG' then
            again gamePath wantBG' (delete_GameInfo info s)
          else
            let s := locked info (decode_icon (now_icon clk)) s in
            let s := locked info (decode_pic0 (now_pic0 clk)) s in
            let s := locked info (decode_pic1 (now_pic1 clk)) s in
            (info, update info (set_lastAccessedTime (now_access clk)) s)
      | None => (info, s)
      end
  | None => again gamePath wantBG' s
  end.

(** The body of the loop shared by [Clear] and [FlushBGs]. *)
Definition flush_bg (info : GameInfo) (tx : Textures) : GameInfo * Textures :=
  let info :=
    if negb (0 =? length (pic0TextureData info))%nat
    then set_pic0TextureData [] info else info in
  let '(info, tx) :=
    match pic0Texture info with
    | Some t => (set_pic0Texture None info, delete_Texture (Some t) tx)
    | None => (info, tx)
    end in
  let info :=
    if negb (0 =? length (pic1TextureData info))%nat
    then set_pic1TextureData [] info else info in
  match pic1Texture info with
  | Some t => (set_pic1Texture None info, delete_Texture (Some t) tx)
  | None => (info, tx)
  end.

(** The Records the map points to, in iteration order. *)
Definition records (s : State) : list addr := (map_to_list (info_ s)).*2.

(** [GameInfoCache::FlushBGs]. *)
Definition FlushBGs (s : State) : State :=
  foldl (fun s a => locked a flush_bg s) s (records s).

(** A whole run of a loader on its Record. *)
Definition run_to_end (w : addr * prog) (s : State) : State :=
  update w.1 (exec w.2) s.

Definition task (item : GameInfoWorkItem) : addr * prog :=
  (item_info_ item, run (gamePath_ item)).

(** Modelled from the spec: [PrioritizedWorkQueue::Flush]
    (thread/prioritizedworkqueue.h is not among the sources): "blocks until
    all outstanding Loader tasks have finished (drain, not cancel)". *)
Definition Flush (s : State) : State :=
  let s := foldl (fun s w => run_to_end w s) s (workers s) in
  let s := foldl (fun s item => run_to_end (task item) s) s (gameInfoWQ_ s) in
  set_workers [] (set_gameInfoWQ_ [] s).

(** [GameInfoCache::Clear]. *)
Definition Clear (s : State) : State :=
  let s := Flush s in
  let s := foldl (fun s a => locked a flush_bg s) s (records s) in
  set_info_ ∅ s.

(** [GameInfoWorkItem::priority], asked in state [s]: the access time of
    the Record, a double, returned as a float. *)
Definition priority (item : GameInfoWorkItem) (s : State) : option time :=
  (fun g => double_to_float env (lastAccessedTime g))
    <$> heap s !! item_info_ item.

(** ** The scheduler and the interleavings

    The scheduler takes some queued item (which one is its business) and a
    worker runs it, one write at a time. *)
Definition start (i : nat) (s : State) : State :=
  match gameInfoWQ_ s !! i with
  | Some item =>
      set_workers (workers s ++ [task item])
        (set_gameInfoWQ_ (delete i (gameInfoWQ_ s)) s)
  | None => s
  end.

Definition work (j : nat) (s : State) : State :=
  match workers s !! j with
  | Some (a, p) =>
      match heap s !! a with
      | Some g =>
          match prog_step p g with
          | Some (p', g') =>
              set_workers (<[j := (a, p')]> (workers s))
                (set_heap (<[a := g']> (heap s)) s)
          | None => set_workers (delete j (workers s)) s
          end
      | None => s
      end
  | None => s
  end.

(** What can happen to the cache.  [EDecode] is a single critical section
    of the decode step on some Record: a loader may run between two of the
    sections of one [GetInfo] call. *)
Inductive event :=
| EGetInfo (gamePath : string) (wantBG' : bool) (clk : Clock)
| EFlushBGs
| EClear
| EStart (i : nat)
| EWork (j : nat)
| EDecode (sl : Slot) (a : addr) (now : time).

Definition decode_slot (sl : Slot) :=
  match sl with
  | Icon => decode_icon
  | Pic0 => decode_pic0
  | Pic1 => decode_pic1
  end.

Definition apply_event (e : event) (s : State) : State :=
  match e with
  | EGetInfo gamePath wantBG' clk => (GetInfo gamePath wantBG' clk s).2
  | EFlushBGs => FlushBGs s
  | EClear => Clear s
  | EStart i => start i s
  | EWork j => work j s
  | EDecode sl a now => locked a (decode_slot sl now) s
  end.

Definition apply_events (evs : list event) (s : State) : State :=
  foldl (fun s e => apply_event e s) s evs.

(** The states the cache can be in: those reached from the empty cache. *)
Definition reach (evs : list event) : State := apply_events evs init.

(** Every task there is, started or not, as a Record and what is left to
    run on it. *)
Definition tasks (s : State) : list (addr * prog) :=
  workers s ++ (task <$> gameInfoWQ_ s).

(** The handles the calls [GetInfo(k, false)] among [evs] return, in order. *)
Fixpoint returned (k : string) (evs : list event) (s : State) : list addr :=
  match evs with
  | [] => []
  | e :: evs =>
      let rest := returned k evs (apply_event e s) in
      match e with
      | EGetInfo k' false clk =>
          if decide (k' = k) then (GetInfo k' false clk s).1 :: rest else rest
      | _ => rest
      end
  end.

End Cache.

(** ** Notions used to state the properties *)

(** An event that is neither [Clear] nor a call [GetInfo(k, true)]. *)
Definition benign (k : string) (e : event) : Prop :=
  match e with
  | EClear => False
  | EGetInfo k' wantBG' _ => k' ≠ k ∨ wantBG' = false
  | _ => True
  end.

(** An allocator that never hands the storage of a deleted Record out
    again. *)
Definition no_reuse (env : Collaborators) : Prop :=
  ∀ s, operator_new env s ∉ dom (heap s).

(** An allocator that hands storage out a second time only in place: when
    the map still points to it, which is the case for the Record deleted by
    the running call of [GetInfo], to be replaced by the new one. *)
Definition reuse_in_place_only (env : Collaborators) : Prop :=
  ∀ s, operator_new env s ∈ dom (heap s) →
       ∃ k, info_ s !! k = Some (operator_new env s).

(** What [FlushBGs] is said to do to one Record: both background slots back
    to [Empty], nothing else touched. *)
Definition flushed (g : GameInfo) : GameInfo :=
  set_pic1Texture None (set_pic1TextureData []
    (set_pic0Texture None (set_pic0TextureData [] g))).

(** The background handles held by the Records at the addresses [l]. *)
Definition bg_handles_of (g : GameInfo) : gset texptr :=
  option_to_set (pic0Texture g) ∪ option_to_set (pic1Texture g).

Definition bg_handles (h : gmap addr GameInfo) (l : list addr) : gset texptr :=
  ⋃ ((fun a => from_option bg_handles_of ∅ (h !! a)) <$> l).

(** A slot never holds raw bytes and a decoded handle at once. *)
Definition slot_ok (sl : Slot) (g : GameInfo) : Prop :=
  ¬ (slot_data sl g ≠ [] ∧ slot_texture sl g ≠ None).

(** The slots a program may still write, and programs that write a slot at
    most once. *)
Definition action_slot (a : action) : option Slot :=
  match a with
  | GetSubFileAsString sl _ | ReadFileInto sl _ _ => Some sl
  | _ => None
  end.

Fixpoint writes (p : prog) : list Slot :=
  match p with
  | Done => []
  | Do a k => option_list (action_slot a) ++ writes k
  | IfWantBG kt kf => writes kt ++ writes kf
  end.

Fixpoint once (p : prog) : Prop :=
  match p with
  | Done => True
  | Do a k => (∀ sl, action_slot a = Some sl → sl ∉ writes k) ∧ once k
  | IfWantBG kt kf => once kt ∧ once kf
  end.

(** Programs all of whose writes are among the allowed ones. *)
Fixpoint all_actions (ok : action → Prop) (p : prog) : Prop :=
  match p with
  | Done => True
  | Do a k => ok a ∧ all_actions ok k
  | IfWantBG kt kf => all_actions ok kt ∧ all_actions ok kf
  end.

(** The invariant behind "such Records stay as they are forever", for a
    class [K] of keys whose loaders only perform writes allowed by [ok] and
    a property [R] of Records that those writes preserve: pointers are
    valid, a queued item bound to the Record of a key was queued for that
    key, what is left of a started loader bound to the Record of a key of
    [K] is still allowed, and the Records of the keys of [K] satisfy [R]. *)
Definition quiet_inv (K : string → Prop) (ok : action → Prop)
  (R : GameInfo → Prop) (s : State) : Prop :=
  (∀ k a, info_ s !! k = Some a → a ∈ dom (heap s)) ∧
  (∀ item, item ∈ gameInfoWQ_ s → item_info_ item ∈ dom (heap s)) ∧
  (∀ a p, (a, p) ∈ workers s → a ∈ dom (heap s)) ∧
  (∀ item k, item ∈ gameInfoWQ_ s →
     info_ s !! k = Some (item_info_ item) → k = gamePath_ item) ∧
  (∀ a p k, (a, p) ∈ workers s → K k → info_ s !! k = Some a →
     all_actions ok p) ∧
  (∀ k a, K k → info_ s !! k = Some a → ∃ g, heap s !! a = Some g ∧ R g).

(** The invariant behind [slot_ok], where no storage is handed out twice:
    every Record has its slots in order, no two tasks are bound to the same
    Record, and the slots a task may still write are Empty in its Record. *)
Definition slots_inv (ts : list (addr * prog)) (h : gmap addr GameInfo)
  : Prop :=
  (∀ a g sl, h !! a = Some g → slot_ok sl g) ∧
  NoDup ts.*1 ∧
  (∀ i a p, ts !! i = Some (a, p) →
     once p ∧ ∃ g, h !! a = Some g ∧ ∀ sl, sl ∈ writes p → slot_Empty sl g).

Definition slots_invariant (env : Collaborators) (s : State) : Prop :=
  slots_inv (tasks env s) (heap s).

(** A Record nothing was ever loaded into: as constructed, but for
    [wantBG] and the access time. *)
Definition unpopulated (g : GameInfo) : Prop :=
  g = set_lastAccessedTime (lastAccessedTime g)
        (set_wantBG (wantBG g) new_GameInfo).

(** The same, but for the kind, which is unset or Executable. *)
Definition bare_executable (g : GameInfo) : Prop :=
  (fileType g = FILETYPE_UNKNOWN ∨ fileType g = FILETYPE_PSP_ELF) ∧
  unpopulated (set_fileType FILETYPE_UNKNOWN g).

(** ** Scenarios *)

Definition clock (t : time) : Clock :=
  {| now_icon := t; now_pic0 := t; now_pic1 := t; now_access := t |}.

(** A world in which every PBP is valid and holds a title, a two-byte icon
    the PNG loader accepts and a one-byte background it rejects; no disc
    image opens. *)
Definition world : Collaborators :=
  {| PBP_IsValid := fun _ => true;
     PBP_GetSubFile := fun _ f =>
       match f with
       | PBP_PARAM_SFO => [x01]
       | PBP_ICON0_PNG => [x02; x03]
       | PBP_PIC1_PNG => [x04]
       end;
     ReadSFO := fun _ t => <["TITLE" := "Game"]> t;
     BlockDevice := unit;
     constructBlockDevice := fun _ => None;
     GetFileInfo := fun _ _ => {| exists_ := false; size := 0 |};
     OpenFile := fun _ _ => 0;
     ReadFile := fun _ _ _ => [];
     LoadPNG := fun d => bool_decide (length d = 2);
     operator_new := fun s => fresh (dom (heap s));
     double_to_float := fun t => t |}.

(** A world with one disc image holding an icon and both backgrounds. *)
Definition disc_world : Collaborators :=
  {| PBP_IsValid := fun _ => false;
     PBP_GetSubFile := fun _ _ => [];
     ReadSFO := fun _ t => <["TITLE" := "Disc"]> t;
     BlockDevice := unit;
     constructBlockDevice := fun _ => Some tt;
     GetFileInfo := fun _ f =>
       if String.eqb f "/PSP_GAME/PARAM.SFO"
       then {| exists_ := false; size := 0 |}
       else {| exists_ := true; size := 2 |};
     OpenFile := fun _ _ => 3;
     ReadFile := fun _ _ _ => [x05; x06];
     LoadPNG := fun _ => true;
     operator_new := fun s => fresh (dom (heap s));
     double_to_float := fun t => t |}.

(** An allocator that hands the storage of the Record deleted by the
    running call of [GetInfo] out again at once, for the Record that
    replaces it (as the allocator of glibc does with the block freed
    last). *)
Definition reuse_in_place (s : State) : addr :=
  match filter (fun a => a ∈ freed s) (records s) with
  | a :: _ => a
  | [] => fresh (dom (heap s))
  end.

(** An allocator that takes unused storage for the first two Records and
    the storage of the first Record, once deleted, for the third. *)
Definition reuse_later (s : State) : addr :=
  if decide (base.size (dom (heap s)) = 2) then 0 else fresh (dom (heap s)).

(** The worlds above with these allocators. *)
Definition with_allocator (alloc : State -> addr) (env : Collaborators)
  : Collaborators :=
  {| PBP_IsValid := PBP_IsValid env;
     PBP_GetSubFile := PBP_GetSubFile env;
     ReadSFO := ReadSFO env;
     BlockDevice := BlockDevice env;
     constructBlockDevice := constructBlockDevice env;
     GetFileInfo := GetFileInfo env;
     OpenFile := OpenFile env;
     ReadFile := ReadFile env;
     LoadPNG := LoadPNG env;
     operator_new := alloc;
     double_to_float := double_to_float env |}.

Definition reusing_world : Collaborators :=
  with_allocator reuse_in_place world.

Definition reusing_disc_world : Collaborators :=
  with_allocator reuse_in_place disc_world.

Definition late_reusing_world : Collaborators :=
  with_allocator reuse_later world.

(** ** The rest of [GameInfoCache]

    [Save], [Load] and [Decimate] have a body that is only a TODO comment,
    [Add] has an empty body, and the destructor calls [Clear].  ([Init] and
    [Shutdown] only start and stop the worker thread of the queue.) *)
Definition Save (s : State) : State := s.
Definition Load (s : State) : State := s.
Definition Decimate (s : State) : State := s.
Definition Add (key : string) (info : addr) (s : State) : State := s.
Definition destroy (env : Collaborators) (s : State) : State := Clear env s.

(** ** Further invariants *)

(** The map: only pointers to Records that exist and were not deleted, no
    Record under two keys. *)
Definition map_inv (s : State) : Prop :=
  freed s ⊆ dom (heap s) ∧
  (∀ k a, info_ s !! k = Some a → a ∈ dom (heap s) ∧ a ∉ freed s) ∧
  (∀ k k' a, info_ s !! k = Some a → info_ s !! k' = Some a → k = k').

(** The handles a Record holds. *)
Definition handles (g : GameInfo) : option texptr * option texptr * option texptr :=
  (iconTexture g, pic0Texture g, pic1Texture g).

Definition held (g : GameInfo) : gset texptr :=
  option_to_set (iconTexture g) ∪ option_to_set (pic0Texture g)
  ∪ option_to_set (pic1Texture g).

Definition distinct_handles (g : GameInfo) : Prop :=
  (∀ t, iconTexture g = Some t →
        pic0Texture g ≠ Some t ∧ pic1Texture g ≠ Some t) ∧
  (∀ t, pic0Texture g = Some t → pic1Texture g ≠ Some t).

(** The textures: only created ones are deleted, every handle held by a
    Record is a live texture, and no texture is held twice. *)
Definition textures_inv (h : gmap addr GameInfo) (tx : Textures) : Prop :=
  deleted tx ⊆ created tx ∧
  (∀ a g, h !! a = Some g → held g ⊆ live tx ∧ distinct_handles g) ∧
  (∀ a a' g g', h !! a = Some g → h !! a' = Some g' → a ≠ a' →
     held g ## held g').

(** What a critical section may do to the textures: create some, delete
    only handles of its own Record or textures it created, and leave its
    Record with live, distinct handles that are its old ones or new. *)
Definition tex_safe (body : GameInfo → Textures → GameInfo * Textures)
  : Prop :=
  ∀ g tx, distinct_handles g → held g ⊆ live tx → deleted tx ⊆ created tx →
    created tx ⊆ created (body g tx).2 ∧
    deleted tx ⊆ deleted (body g tx).2 ∧
    deleted (body g tx).2 ⊆ created (body g tx).2 ∧
    held (body g tx).1 ⊆ live (body g tx).2 ∧
    distinct_handles (body g tx).1 ∧
    held (body g tx).1 ⊆ held g ∪ (created (body g tx).2 ∖ created tx) ∧
    deleted (body g tx).2 ∖ deleted tx
      ⊆ held g ∪ (created (body g tx).2 ∖ created tx).

(** Programs that write a background slot only after having read [wantBG]
    as true. *)
Fixpoint guarded (p : prog) : Prop :=
  match p with
  | Done => True
  | Do a k =>
      action_slot a ≠ Some Pic0 ∧ action_slot a ≠ Some Pic1 ∧ guarded k
  | IfWantBG kt kf => guarded kf
  end.

Definition no_background (g : GameInfo) : Prop :=
  slot_Empty Pic0 g ∧ slot_Empty Pic1 g.

(** Records that do not want backgrounds have none, what is left of a
    loader bound to such a Record is guarded, and the Records that were
    deleted did not want backgrounds (so that the loaders that outlived them
    are guarded whichever Record takes their storage over). *)
Definition bg_inv (ts : list (addr * prog)) (h : gmap addr GameInfo)
  (fr : gset addr) : Prop :=
  (∀ a g, h !! a = Some g → wantBG g = false → no_background g) ∧
  (∀ a p, (a, p) ∈ ts →
     ∃ g, h !! a = Some g ∧ (wantBG g = false → guarded p)) ∧
  (∀ a, a ∈ fr → ∃ g, h !! a = Some g ∧ wantBG g = false).

(** The writes of a raw buffer. *)
Definition slot_write (a : action) : Prop := is_Some (action_slot a).

(** The decode timestamp of a slot. *)
Definition slot_time (sl : Slot) (g : GameInfo) : time :=
  match sl with
  | Icon => timeIconWasLoaded g
  | Pic0 => timePic0WasLoaded g
  | Pic1 => timePic1WasLoaded g
  end.

(** * Properties *)

Section Properties.

Variable env : Collaborators.

(** ** How the primitive writes act on the store *)

Lemma update_lookup a f s b :
  heap (update a f s) !! b
  = if decide (a = b) then f <$> heap s !! b else heap s !! b.
Proof.
  unfold update; simpl. rewrite lookup_alter.
  by destruct (decide (a = b)) as [<-|].
Qed.

Lemma locked_lookup a body s b :
  heap (locked a body s) !! b
  = if decide (a = b) then (fun g => (body g (tex s)).1) <$> heap s !! b
    else heap s !! b.
Proof.
  unfold locked. destruct (heap s !! a) as [g|] eqn:Ha.
  - destruct (body g (tex s)) as [g' tx] eqn:Hb; simpl.
    rewrite lookup_insert. destruct (decide (a = b)) as [<-|]; [|done].
    rewrite Ha; simpl. by rewrite Hb.
  - destruct (decide (a = b)) as [<-|]; [|done]. by rewrite Ha.
Qed.

Lemma locked_frame a body s :
  info_ (locked a body s) = info_ s ∧
  gameInfoWQ_ (locked a body s) = gameInfoWQ_ s ∧
  workers (locked a body s) = workers s ∧
  freed (locked a body s) = freed s.
Proof.
  unfold locked. destruct (heap s !! a) as [g|]; [|done].
  by destruct (body g (tex s)).
Qed.

Lemma locked_tex a body s :
  tex (locked a body s)
  = from_option (fun g => (body g (tex s)).2) (tex s) (heap s !! a).
Proof.
  unfold locked. destruct (heap s !! a) as [g|]; simpl; [|done].
  by destruct (body g (tex s)).
Qed.

Lemma locked_dom a body s : dom (heap (locked a body s)) = dom (heap s).
Proof.
  apply set_eq; intros b. rewrite !elem_of_dom, locked_lookup.
  destruct (decide (a = b)); [|done]. by rewrite fmap_is_Some.
Qed.

Lemma update_dom a f s : dom (heap (update a f s)) = dom (heap s).
Proof.
  apply set_eq; intros b. rewrite !elem_of_dom, update_lookup.
  destruct (decide (a = b)); [|done]. by rewrite fmap_is_Some.
Qed.

(** ** [GetInfo] on a hit and on a miss *)

Lemma new_storage_spec s : new_storage env s ∉ allocated s.
Proof.
  unfold new_storage. destruct (decide _) as [_|H]; [|done].
  unfold allocated. pose proof (is_fresh (dom (heap s))). set_solver.
Qed.

Lemma new_storage_fresh s :
  no_reuse env → new_storage env s ∉ dom (heap s).
Proof.
  intros H. unfold new_storage. rewrite decide_False; [apply H|].
  unfold allocated. specialize (H s). set_solver.
Qed.

Lemma again_spec k w s :
  let a := new_storage env s in
  (again env k w s).1 = a ∧
  (a ∉ allocated s) ∧
  info_ (again env k w s).2 = <[k := a]> (info_ s) ∧
  heap (again env k w s).2 = <[a := set_wantBG w new_GameInfo]> (heap s) ∧
  gameInfoWQ_ (again env k w s).2
  = gameInfoWQ_ s ++ [{| gamePath_ := k; item_info_ := a |}] ∧
  workers (again env k w s).2 = workers s ∧
  freed (again env k w s).2 = freed s ∖ {[a]} ∧
  tex (again env k w s).2 = tex s.
Proof.
  simpl. repeat split; try reflexivity. apply new_storage_spec.
Qed.

Lemma GetInfo_hit_handle k w clk s a :
  info_ s !! k = Some a →
  w = false ∨ (∃ g, heap s !! a = Some g ∧ wantBG g = true) ∨ heap s !! a = None →
  (GetInfo env k w clk s).1 = a ∧ info_ (GetInfo env k w clk s).2 = info_ s.
Proof.
  intros Hk Hw. unfold GetInfo. rewrite Hk.
  destruct (heap s !! a) as [g|] eqn:Ha; [|done].
  assert (negb (wantBG g) && w = false) as ->.
  { destruct Hw as [->|[(g' & Hg' & Hbg)|?]]; [apply andb_false_r| |done].
    injection Hg' as <-. by rewrite Hbg. }
  simpl. split; [done|].
  by rewrite !(proj1 (locked_frame _ _ _)).
Qed.

Lemma GetInfo_other_key k k' w clk s :
  k' ≠ k → info_ (GetInfo env k' w clk s).2 !! k = info_ s !! k.
Proof.
  intros Hne. unfold GetInfo.
  destruct (info_ s !! k') as [a|] eqn:Hk'.
  - destruct (heap s !! a) as [g|]; [|done].
    destruct (negb (wantBG g) && w).
    + simpl. by rewrite lookup_insert_ne.
    + simpl. by rewrite !(proj1 (locked_frame _ _ _)).
  - simpl. by rewrite lookup_insert_ne.
Qed.

Lemma fold_locked_frame body l s :
  let s' := foldl (fun s a => locked a body s) s l in
  info_ s' = info_ s ∧ gameInfoWQ_ s' = gameInfoWQ_ s ∧
  workers s' = workers s ∧ freed s' = freed s ∧
  dom (heap s') = dom (heap s).
Proof.
  revert s. induction l as [|a l IH]; intros s; simpl; [done|].
  destruct (IH (locked a body s)) as (-> & -> & -> & -> & ->).
  destruct (locked_frame a body s) as (-> & -> & -> & ->).
  by rewrite locked_dom.
Qed.

Lemma FlushBGs_info_ s : info_ (FlushBGs s) = info_ s.
Proof. apply fold_locked_frame. Qed.

Lemma start_info_ i s : info_ (start env i s) = info_ s.
Proof. unfold start. by destruct (gameInfoWQ_ s !! i). Qed.

Lemma work_info_ j s : info_ (work env j s) = info_ s.
Proof.
  unfold work. destruct (workers s !! j) as [[a p]|]; [|done].
  destruct (heap s !! a) as [g|]; [|done].
  by destruct (prog_step env p g) as [[p' g']|].
Qed.

Lemma benign_keeps_entry k e s a :
  benign k e → info_ s !! k = Some a →
  info_ (apply_event env e s) !! k = Some a.
Proof.
  intros Hb Hk. destruct e as [k' w clk| | |i|j|sl b now]; simpl in *.
  - destruct (decide (k' = k)) as [->|Hne].
    + destruct Hb as [?| ->]; [done|].
      by rewrite (proj2 (GetInfo_hit_handle k false clk s a Hk (or_introl eq_refl))).
    + by rewrite GetInfo_other_key.
  - by rewrite FlushBGs_info_.
  - done.
  - by rewrite start_info_.
  - by rewrite work_info_.
  - by rewrite (proj1 (locked_frame _ _ _)).
Qed.

Lemma returned_stable k a evs : ∀ s,
  Forall (benign k) evs → info_ s !! k = Some a →
  Forall (fun r => r = a) (returned env k evs s).
Proof.
  induction evs as [|e evs IH]; intros s Hb Hk; simpl; [constructor|].
  inversion Hb as [|? ? He Hevs]; subst.
  specialize (IH (apply_event env e s) Hevs (benign_keeps_entry k e s a He Hk)).
  destruct e as [k' [] clk| | |i|j|sl b now]; try done.
  destruct (decide (k' = k)) as [->|]; [|done].
  constructor; [|done].
  apply (GetInfo_hit_handle k false clk s a Hk). by left.
Qed.

Lemma GetInfo_entry k w clk s :
  info_ (GetInfo env k w clk s).2 !! k = Some (GetInfo env k w clk s).1.
Proof.
  unfold GetInfo. destruct (info_ s !! k) as [a|] eqn:Hk.
  - destruct (heap s !! a) as [g|]; [|done].
    destruct (negb (wantBG g) && w); simpl.
    + by rewrite lookup_insert_eq.
    + by rewrite !(proj1 (locked_frame _ _ _)).
  - simpl. by rewrite lookup_insert_eq.
Qed.

(** C8, as amended.  Repeated calls [GetInfo(k, false)] return the same
    Record: after a first call, whatever happens to the cache short of
    [Clear] and of a call [GetInfo(k, true)] (other lookups, loader
    activity, decode sections, [FlushBGs]), every later [GetInfo(k, false)]
    returns the handle the first call returned, and the map entry of [k] is
    still that handle. *)
Theorem GetInfo_identity_stable k clk s evs :
  Forall (benign k) evs →
  let first := GetInfo env k false clk s in
  Forall (fun r => r = first.1) (returned env k evs first.2) ∧
  info_ (apply_events env evs first.2) !! k = Some first.1.
Proof.
  intros Hb first. split.
  - apply returned_stable; [done|]. apply GetInfo_entry.
  - assert (info_ first.2 !! k = Some first.1) as Hk by apply GetInfo_entry.
    revert Hb Hk. generalize first.2 as s1. generalize first.1 as a. clear.
    intros a s1 Hb. revert s1.
    induction Hb as [|e evs He Hevs IH]; intros s1 Hk; simpl; [done|].
    apply IH. by apply benign_keeps_entry.
Qed.

(** ** [FlushBGs] *)

Lemma flush_bg_fst g tx : (flush_bg g tx).1 = flushed g.
Proof.
  destruct g as [? ? ? ? ? d0 t0 d1 t1 ? ? ? ? ?].
  unfold flush_bg, flushed; simpl.
  destruct d0, t0, d1, t1; reflexivity.
Qed.

Lemma flush_bg_snd g tx :
  (flush_bg g tx).2
  = delete_Texture (pic1Texture g) (delete_Texture (pic0Texture g) tx).
Proof.
  destruct g as [? ? ? ? ? d0 t0 d1 t1 ? ? ? ? ?].
  unfold flush_bg; simpl.
  destruct d0, t0, d1, t1; reflexivity.
Qed.

Lemma flushed_idemp g : flushed (flushed g) = flushed g.
Proof. reflexivity. Qed.

Lemma delete_Texture_deleted o tx :
  deleted (delete_Texture o tx) = option_to_set o ∪ deleted tx.
Proof. destruct o; simpl; [done|]. by rewrite (left_id_L ∅ (∪)). Qed.

Lemma delete_Texture_created o tx :
  created (delete_Texture o tx) = created tx.
Proof. by destruct o. Qed.

Lemma elem_of_bg_handles (h : gmap addr GameInfo) l t :
  t ∈ bg_handles h l ↔
  ∃ a g, a ∈ l ∧ h !! a = Some g ∧ t ∈ bg_handles_of g.
Proof.
  unfold bg_handles. rewrite elem_of_union_list. split.
  - intros (X & HX & Ht). apply list_elem_of_fmap in HX as (a & -> & Ha).
    destruct (h !! a) as [g|] eqn:Hg; simpl in Ht; [|set_solver].
    by exists a, g.
  - intros (a & g & Ha & Hg & Ht).
    exists (from_option bg_handles_of ∅ (h !! a)). split.
    + apply list_elem_of_fmap. by exists a.
    + by rewrite Hg.
Qed.

Lemma bg_handles_of_spec g t :
  t ∈ bg_handles_of g ↔ pic0Texture g = Some t ∨ pic1Texture g = Some t.
Proof.
  unfold bg_handles_of. rewrite elem_of_union, !elem_of_option_to_set.
  done.
Qed.

Lemma bg_handles_of_flushed g : bg_handles_of (flushed g) = ∅.
Proof. unfold bg_handles_of; simpl. set_solver. Qed.

Lemma fold_flush_lookup l : ∀ s a,
  heap (foldl (fun s a => locked a flush_bg s) s l) !! a
  = if decide (a ∈ l) then flushed <$> heap s !! a else heap s !! a.
Proof.
  induction l as [|a0 l IH]; intros s a; simpl.
  - destruct (decide (a ∈ [])) as [H|]; [|done]. by apply elem_of_nil in H.
  - rewrite IH, locked_lookup.
    destruct (decide (a0 = a)) as [->|Hne].
    + rewrite (decide_True (P := a ∈ a :: l)) by apply list_elem_of_here.
      destruct (heap s !! a) as [g|]; simpl.
      * rewrite flush_bg_fst. by destruct (decide (a ∈ l)).
      * by destruct (decide (a ∈ l)).
    + destruct (decide (a ∈ l)) as [Hl|Hl].
      * by rewrite decide_True by (by apply list_elem_of_further).
      * rewrite decide_False; [done|].
        intros [?|?]%elem_of_cons; congruence.
Qed.

Lemma fold_flush_tex l : ∀ s,
  let s' := foldl (fun s a => locked a flush_bg s) s l in
  created (tex s') = created (tex s) ∧
  deleted (tex s') = deleted (tex s) ∪ bg_handles (heap s) l.
Proof.
  induction l as [|a0 l IH]; intros s; simpl.
  - split; [done|]. unfold bg_handles; simpl. set_solver.
  - destruct (IH (locked a0 flush_bg s)) as [-> ->].
    rewrite locked_tex.
    destruct (heap s !! a0) as [g0|] eqn:H0; simpl.
    + rewrite flush_bg_snd, !delete_Texture_created.
      split; [done|].
      rewrite !delete_Texture_deleted.
      apply set_eq; intros t.
      rewrite !elem_of_union, !elem_of_bg_handles.
      split.
      * intros [[H1|[H0'|Hd]]|(a & g & Ha & Hg & Ht)].
        -- right. exists a0, g0. split; [apply list_elem_of_here|].
           split; [done|]. unfold bg_handles_of. set_solver.
        -- right. exists a0, g0. split; [apply list_elem_of_here|].
           split; [done|]. unfold bg_handles_of. set_solver.
        -- by left.
        -- rewrite locked_lookup in Hg.
           destruct (decide (a0 = a)) as [->|Hne].
           ++ rewrite H0 in Hg. simpl in Hg. rewrite flush_bg_fst in Hg.
              injection Hg as <-. rewrite bg_handles_of_flushed in Ht.
              set_solver.
           ++ right. exists a, g. split; [by apply list_elem_of_further|done].
      * intros [Hd|(a & g & Ha & Hg & Ht)]; [by left; right; right|].
        destruct (decide (a0 = a)) as [->|Hne].
        -- rewrite H0 in Hg. injection Hg as <-.
           unfold bg_handles_of in Ht. left. set_solver.
        -- apply elem_of_cons in Ha as [->|Ha]; [done|].
           right. exists a, g. split; [done|]. split; [|done].
           rewrite locked_lookup. by rewrite decide_False.
    + split; [done|]. f_equal.
      apply set_eq; intros t. rewrite !elem_of_bg_handles.
      split.
      * intros (a & g & Ha & Hg & Ht). exists a, g.
        split; [by apply list_elem_of_further|]. split; [|done].
        rewrite locked_lookup in Hg.
        destruct (decide (a0 = a)) as [->|]; [|done].
        by rewrite H0 in Hg.
      * intros (a & g & Ha & Hg & Ht). exists a, g.
        apply elem_of_cons in Ha as [->|Ha]; [congruence|].
        split; [done|]. split; [|done].
        rewrite locked_lookup.
        destruct (decide (a0 = a)) as [->|]; [congruence|done].
Qed.

Lemma elem_of_records s a : a ∈ records s ↔ ∃ k, info_ s !! k = Some a.
Proof.
  unfold records. rewrite list_elem_of_fmap. split.
  - intros ([k b] & -> & H). exists k. by apply elem_of_map_to_list in H.
  - intros (k & Hk). exists (k, a). split; [done|].
    by apply elem_of_map_to_list.
Qed.

(** C5.  [FlushBGs] keeps the map, the queue and the set of Records; each
    Record that some key of the map points to has its two background slots
    reset to Empty and every other field unchanged (icon data and handle,
    title, metadata table, kind, flag and times); a Record no key points to
    is untouched; no texture is created, and the textures deleted are
    exactly the background handles of the Records the keys point to. *)
Theorem FlushBGs_only_backgrounds s :
  info_ (FlushBGs s) = info_ s ∧
  gameInfoWQ_ (FlushBGs s) = gameInfoWQ_ s ∧
  workers (FlushBGs s) = workers s ∧
  freed (FlushBGs s) = freed s ∧
  (∀ k a, info_ s !! k = Some a →
     heap (FlushBGs s) !! a = flushed <$> heap s !! a) ∧
  (∀ a, (∀ k, info_ s !! k ≠ Some a) →
     heap (FlushBGs s) !! a = heap s !! a) ∧
  (∀ g, slot_Empty Pic0 (flushed g) ∧ slot_Empty Pic1 (flushed g) ∧
        iconTextureData (flushed g) = iconTextureData g ∧
        iconTexture (flushed g) = iconTexture g ∧
        title (flushed g) = title g ∧
        paramSFO (flushed g) = paramSFO g ∧
        fileType (flushed g) = fileType g ∧
        wantBG (flushed g) = wantBG g ∧
        lastAccessedTime (flushed g) = lastAccessedTime g ∧
        timeIconWasLoaded (flushed g) = timeIconWasLoaded g ∧
        timePic0WasLoaded (flushed g) = timePic0WasLoaded g ∧
        timePic1WasLoaded (flushed g) = timePic1WasLoaded g) ∧
  created (tex (FlushBGs s)) = created (tex s) ∧
  (∀ t, t ∈ deleted (tex (FlushBGs s)) ↔
        t ∈ deleted (tex s) ∨
        ∃ k a g, info_ s !! k = Some a ∧ heap s !! a = Some g ∧
                 (pic0Texture g = Some t ∨ pic1Texture g = Some t)).
Proof.
  unfold FlushBGs.
  destruct (fold_locked_frame flush_bg (records s) s) as (-> & -> & -> & -> & _).
  destruct (fold_flush_tex (records s) s) as [-> Hdel].
  repeat split; try reflexivity.
  - intros k a Hk. rewrite fold_flush_lookup, decide_True; [done|].
    apply elem_of_records. eauto.
  - intros a Hno. rewrite fold_flush_lookup, decide_False; [done|].
    intros (k & Hk)%elem_of_records. by apply (Hno k).
  - rewrite Hdel, elem_of_union, elem_of_bg_handles.
    intros [Hd|(a & g & (k & Hk)%elem_of_records & Hg & Ht)]; [by left|].
    right. exists k, a, g. split; [done|]. split; [done|].
    apply bg_handles_of_spec, Ht.
  - rewrite Hdel, elem_of_union, elem_of_bg_handles.
    intros [Hd|(k & a & g & Hk & Hg & Ht)]; [by left|].
    right. exists a, g. split; [apply elem_of_records; eauto|].
    split; [done|]. by apply bg_handles_of_spec.
Qed.

(** ** The decode blocks *)

Lemma decode_slot_clears sl now g tx :
  slot_data sl (decode_slot env sl now g tx).1 = [].
Proof.
  destruct sl; simpl.
  - unfold decode_icon. destruct (iconTextureData g) eqn:E; simpl; [done|].
    by destruct (LoadPNG env _).
  - unfold decode_pic0. destruct (pic0TextureData g) eqn:E; simpl; [done|].
    by destruct (LoadPNG env _).
  - unfold decode_pic1. destruct (pic1TextureData g) eqn:E; simpl; [done|].
    by destruct (LoadPNG env _).
Qed.

Lemma decode_slot_idle sl now g tx :
  slot_data sl g = [] → decode_slot env sl now g tx = (g, tx).
Proof.
  destruct sl; simpl; intros E.
  - unfold decode_icon. by rewrite E.
  - unfold decode_pic0. by rewrite E.
  - unfold decode_pic1. by rewrite E.
Qed.

Lemma decode_slot_success sl now g tx :
  slot_data sl g ≠ [] → LoadPNG env (slot_data sl g) = true →
  let r := decode_slot env sl now g tx in
  slot_data sl r.1 = [] ∧
  slot_texture sl r.1 = Some (fresh (created tx)) ∧
  r.2 = (new_Texture tx).2 ∧
  (∀ sl', sl' ≠ sl →
     slot_data sl' r.1 = slot_data sl' g ∧
     slot_texture sl' r.1 = slot_texture sl' g).
Proof.
  intros Hne Hok r.
  destruct sl; simpl in *; subst r.
  - unfold decode_icon. destruct (iconTextureData g) eqn:E; [done|].
    simpl. rewrite ?E, Hok. simpl. repeat split; try done; by destruct sl'.
  - unfold decode_pic0. destruct (pic0TextureData g) eqn:E; [done|].
    simpl. rewrite ?E, Hok. simpl. repeat split; try done; by destruct sl'.
  - unfold decode_pic1. destruct (pic1TextureData g) eqn:E; [done|].
    simpl. rewrite ?E, Hok. simpl. repeat split; try done; by destruct sl'.
Qed.

(** A failed decode of the icon leaves the icon slot Empty, deletes the
    texture it had created and touches no other slot. *)
Lemma decode_icon_failure now g tx :
  iconTextureData g ≠ [] → LoadPNG env (iconTextureData g) = false →
  let r := decode_icon env now g tx in
  slot_Empty Icon r.1 ∧
  r.2 = delete_Texture (Some (fresh (created tx))) (new_Texture tx).2 ∧
  (∀ sl', sl' ≠ Icon →
     slot_data sl' r.1 = slot_data sl' g ∧
     slot_texture sl' r.1 = slot_texture sl' g).
Proof.
  intros Hne Hok r. subst r. unfold decode_icon.
  destruct (iconTextureData g) eqn:E; [done|].
  simpl. rewrite ?E, Hok. simpl. repeat split; try done; by destruct sl'.
Qed.

(** A failed decode of a background: the handle of the slot itself stays
    set, and it is the icon handle that is deleted and cleared. *)
Lemma decode_pic0_failure now g tx :
  pic0TextureData g ≠ [] → LoadPNG env (pic0TextureData g) = false →
  let r := decode_pic0 env now g tx in
  pic0TextureData r.1 = [] ∧
  pic0Texture r.1 = Some (fresh (created tx)) ∧
  iconTexture r.1 = None ∧
  r.2 = delete_Texture (iconTexture g) (new_Texture tx).2.
Proof.
  intros Hne Hok r. subst r. unfold decode_pic0.
  destruct (pic0TextureData g) eqn:E; [done|].
  simpl. rewrite ?E. by rewrite Hok.
Qed.

Lemma decode_pic1_failure now g tx :
  pic1TextureData g ≠ [] → LoadPNG env (pic1TextureData g) = false →
  let r := decode_pic1 env now g tx in
  pic1TextureData r.1 = [] ∧
  pic1Texture r.1 = Some (fresh (created tx)) ∧
  iconTexture r.1 = None ∧
  r.2 = delete_Texture (iconTexture g) (new_Texture tx).2.
Proof.
  intros Hne Hok r. subst r. unfold decode_pic1.
  destruct (pic1TextureData g) eqn:E; [done|].
  simpl. rewrite ?E. by rewrite Hok.
Qed.

(** ** The access time *)

Lemma GetInfo_created_access_time k w clk s :
  info_ s !! k = None →
  let r := GetInfo env k w clk s in
  heap r.2 !! r.1 = Some (set_wantBG w new_GameInfo).
Proof.
  intros Hk r. subst r. unfold GetInfo. rewrite Hk. simpl.
  by rewrite lookup_insert_eq.
Qed.

Lemma GetInfo_escalated_access_time k w clk s a g :
  info_ s !! k = Some a → heap s !! a = Some g →
  negb (wantBG g) && w = true →
  let r := GetInfo env k w clk s in
  heap r.2 !! r.1 = Some (set_wantBG w new_GameInfo).
Proof.
  intros Hk Ha Hw r. subst r. unfold GetInfo. rewrite Hk, Ha, Hw. simpl.
  by rewrite lookup_insert_eq.
Qed.

(** C9, as amended.  A call of [GetInfo] that finds a Record and does not
    escalate returns that Record with its [lastAccessedTime] set to the
    reading of the clock taken by the call, and from then on [priority] of
    any work item bound to the Record answers that reading, converted to
    float.  A call that creates a Record, on a miss or on an escalation,
    returns it as constructed, but for [wantBG]: its access time is not
    set.  At any time [priority] is read from the Record as it is when
    asked. *)
Theorem GetInfo_access_time k w clk s :
  let r := GetInfo env k w clk s in
  (∀ a g, info_ s !! k = Some a → heap s !! a = Some g →
     negb (wantBG g) && w = false →
     r.1 = a ∧
     lastAccessedTime <$> heap r.2 !! a = Some (now_access clk) ∧
     ∀ item, item_info_ item = a →
       priority env item r.2 = Some (double_to_float env (now_access clk))) ∧
  (info_ s !! k = None ∨
   (∃ a g, info_ s !! k = Some a ∧ heap s !! a = Some g ∧
           negb (wantBG g) && w = true) →
   heap r.2 !! r.1 = Some (set_wantBG w new_GameInfo) ∧
   lastAccessedTime <$> heap r.2 !! r.1
   = Some (lastAccessedTime new_GameInfo)) ∧
  (∀ item s' g, heap s' !! item_info_ item = Some g →
     priority env item s' = Some (double_to_float env (lastAccessedTime g))).
Proof.
  intros r. split; [|split].
  - intros a g Hk Ha Hw.
    assert (r.1 = a ∧
            lastAccessedTime <$> heap r.2 !! a = Some (now_access clk))
      as [H1 H2].
    { subst r. unfold GetInfo. rewrite Hk, Ha, Hw. cbn [fst snd].
      split; [done|].
      rewrite update_lookup, decide_True by done.
      assert (is_Some (heap (locked a (decode_pic1 env (now_pic1 clk))
                (locked a (decode_pic0 env (now_pic0 clk))
                   (locked a (decode_icon env (now_icon clk)) s))) !! a))
        as [g' ->].
      { apply elem_of_dom. rewrite !locked_dom. apply elem_of_dom. eauto. }
      done. }
    repeat split; [done..|].
    intros item Hitem. unfold priority. rewrite Hitem.
    destruct (heap r.2 !! a) as [g'|]; [|done].
    simpl in *. by injection H2 as ->.
  - intros H.
    assert (heap r.2 !! r.1 = Some (set_wantBG w new_GameInfo)) as ->.
    { destruct H as [Hk|(a & g & Hk & Ha & Hw)].
      - by apply GetInfo_created_access_time.
      - by apply (GetInfo_escalated_access_time k w clk s a g). }
    done.
  - intros item s' g Hg. unfold priority. by rewrite Hg.
Qed.

(** ** The dispatch of [run] on the form of the path *)

Lemma endsWith_exclusive str a b :
  String.length a = String.length b → a ≠ b →
  endsWith str a = true → endsWith str b = false.
Proof.
  intros Hlen Hne. unfold endsWith. rewrite Hlen.
  destruct (String.length str <? String.length b)%nat; [done|].
  intros H%String.eqb_eq. rewrite H. by apply String.eqb_neq.
Qed.

Lemma executable_not_PBP path :
  endsWith path ".elf" || endsWith path ".prx" = true →
  endsWith path ".PBP" = false.
Proof.
  intros [H|H]%orb_true_iff;
    (eapply endsWith_exclusive; [| |exact H]; [reflexivity|discriminate]).
Qed.


Lemma run_executable path :
  startsWith path "ms0:/PSP/GAME" = false →
  endsWith path ".elf" || endsWith path ".prx" = true →
  run env path = Do (SetFileType FILETYPE_PSP_ELF) Done.
Proof.
  intros H1 H2. unfold run.
  by rewrite H1, (executable_not_PBP path H2), H2.
Qed.

(** C4, as amended.  For a path that is dispatched as a disc image, when
    the block device cannot be constructed the loader has already assigned
    the kind and does nothing more: the Record ends with kind OpticalImage
    and every other field as it was. *)
Theorem run_disc_without_device path g :
  startsWith path "ms0:/PSP/GAME" = false →
  endsWith path ".PBP" = false →
  endsWith path ".elf" || endsWith path ".prx" = false →
  constructBlockDevice env path = None →
  run env path = Do (SetFileType FILETYPE_PSP_ISO) Done ∧
  exec env (run env path) g = set_fileType FILETYPE_PSP_ISO g.
Proof.
  intros H1 H2 H3 H4.
  assert (run env path = Do (SetFileType FILETYPE_PSP_ISO) Done) as ->.
  { unfold run. by rewrite H1, H2, H3, H4. }
  done.
Qed.

Lemma elem_of_list_insert_inv {A} (l : list A) i x y :
  y ∈ <[i:=x]> l → y = x ∨ y ∈ l.
Proof.
  intros [j Hj]%list_elem_of_lookup.
  destruct (decide (i = j)) as [->|Hne].
  - destruct (decide (j < length l)) as [Hlt|Hge].
    + rewrite list_lookup_insert_eq in Hj by done. left. congruence.
    + rewrite list_insert_ge in Hj by lia. right.
      by eapply list_elem_of_lookup_2.
  - rewrite list_lookup_insert_ne in Hj by done. right.
    by eapply list_elem_of_lookup_2.
Qed.

(** ** The slots: never raw bytes and a handle at once *)

Lemma slot_Empty_ok sl g : slot_Empty sl g → slot_ok sl g.
Proof. intros [H1 H2] [H3 _]. done. Qed.

Lemma decode_slot_ok sl now g tx :
  (∀ sl', slot_ok sl' g) → ∀ sl', slot_ok sl' (decode_slot env sl now g tx).1.
Proof.
  intros Hok sl'. pose proof (Hok Icon) as HI.
  pose proof (Hok Pic0) as H0. pose proof (Hok Pic1) as H1.
  unfold slot_ok in *.
  destruct sl; simpl;
    [unfold decode_icon; destruct (iconTextureData g) eqn:E
    |unfold decode_pic0; destruct (pic0TextureData g) eqn:E
    |unfold decode_pic1; destruct (pic1TextureData g) eqn:E];
    simpl; rewrite ?E; try (by destruct sl');
    destruct (LoadPNG env _); destruct sl'; simpl in *; rewrite ?E in *;
    naive_solver.
Qed.

Lemma decode_slot_Empty sl now g tx sl' :
  slot_Empty sl' g → slot_Empty sl' (decode_slot env sl now g tx).1.
Proof.
  unfold slot_Empty.
  destruct sl; simpl;
    [unfold decode_icon; destruct (iconTextureData g) eqn:E
    |unfold decode_pic0; destruct (pic0TextureData g) eqn:E
    |unfold decode_pic1; destruct (pic1TextureData g) eqn:E];
    simpl; rewrite ?E; try done;
    destruct (LoadPNG env _); destruct sl'; simpl in *; rewrite ?E in *;
    naive_solver.
Qed.

Lemma flushed_ok g : (∀ sl, slot_ok sl g) → ∀ sl, slot_ok sl (flushed g).
Proof.
  intros Hok sl. specialize (Hok sl). unfold slot_ok, flushed in *.
  destruct sl; simpl in *; naive_solver.
Qed.

Lemma flushed_Empty g sl : slot_Empty sl g → slot_Empty sl (flushed g).
Proof. unfold slot_Empty, flushed. destruct sl; simpl; naive_solver. Qed.

Lemma apply_action_slots a g sl :
  slot_texture sl (apply_action env a g) = slot_texture sl g ∧
  (action_slot a ≠ Some sl →
   slot_data sl (apply_action env a g) = slot_data sl g).
Proof.
  destruct a as [t|d|sl0 d|sl0 n d]; simpl.
  - by destruct sl.
  - by destruct sl.
  - destruct sl0, sl; simpl; split; congruence.
  - destruct sl0, sl; simpl; split; congruence.
Qed.

(** One write of a loader keeps the slots in order, and the slots still to
    be written Empty. *)
Lemma action_keeps_slots a k g :
  once (Do a k) →
  (∀ sl, sl ∈ writes (Do a k) → slot_Empty sl g) →
  (∀ sl, slot_ok sl g) →
  (∀ sl, slot_ok sl (apply_action env a g)) ∧
  (∀ sl, sl ∈ writes k → slot_Empty sl (apply_action env a g)).
Proof.
  simpl. intros [Hfree Hk] HE Hok. split.
  - intros sl. destruct (apply_action_slots a g sl) as [Ht Hd].
    unfold slot_ok. rewrite Ht.
    destruct (decide (action_slot a = Some sl)) as [Ha|Ha].
    + destruct (HE sl) as [_ Hnone]; [|naive_solver].
      rewrite Ha. simpl. set_solver.
    + rewrite (Hd Ha). apply Hok.
  - intros sl Hsl. destruct (apply_action_slots a g sl) as [Ht Hd].
    unfold slot_Empty. rewrite Ht, Hd.
    + apply HE. set_solver.
    + intros Ha. by apply (Hfree sl).
Qed.

Lemma exec_keeps_slots p : ∀ g,
  once p → (∀ sl, sl ∈ writes p → slot_Empty sl g) →
  (∀ sl, slot_ok sl g) → ∀ sl, slot_ok sl (exec env p g).
Proof.
  induction p as [|a k IH|kt IHt kf IHf]; intros g Honce HE Hok; simpl.
  - done.
  - destruct (action_keeps_slots a k g Honce HE Hok) as [Hok' HE'].
    apply IH; [by destruct Honce|done..].
  - destruct Honce as [Ht Hf]. simpl in HE.
    destruct (wantBG g); [apply IHt|apply IHf]; try done;
      intros sl ?; apply HE; set_solver.
Qed.

Lemma step_keeps_slots p g p' g' :
  prog_step env p g = Some (p', g') →
  once p → (∀ sl, sl ∈ writes p → slot_Empty sl g) →
  (∀ sl, slot_ok sl g) →
  once p' ∧ (∀ sl, sl ∈ writes p' → slot_Empty sl g') ∧
  (∀ sl, slot_ok sl g').
Proof.
  destruct p as [|a k|kt kf]; simpl; intros H Honce HE Hok; [done| |].
  - injection H as <- <-.
    destruct (action_keeps_slots a k g Honce HE Hok) as [Hok' HE'].
    by destruct Honce.
  - injection H as <- <-. destruct Honce as [Ht Hf].
    destruct (wantBG g); (split; [done|]); (split; [|done]);
      intros sl ?; apply HE; set_solver.
Qed.

Lemma once_run path : once (run env path).
Proof.
  unfold run, pbp_into, read_into.
  repeat case_match; simpl; repeat split;
    try (intros sl [= <-]); set_solver.
Qed.

Lemma slots_heap_change ts (h h' : gmap addr GameInfo) a F :
  (∀ b, h' !! b = if decide (a = b) then F <$> h !! b else h !! b) →
  (∀ g, (∀ sl, slot_ok sl g) → ∀ sl, slot_ok sl (F g)) →
  (∀ g sl, slot_Empty sl g → slot_Empty sl (F g)) →
  slots_inv ts h → slots_inv ts h'.
Proof.
  intros Hh Hok HE (I1 & I2 & I3). split; [|split; [done|]].
  - intros b g' sl. rewrite Hh.
    destruct (decide (a = b)) as [<-|]; [|apply I1].
    destruct (h !! a) as [g|] eqn:Hg; [|done].
    intros [= <-]. apply Hok. intros sl'. by apply (I1 a).
  - intros i b p Hi. destruct (I3 i b p Hi) as (Honce & g & Hg & Hw).
    split; [done|]. rewrite Hh.
    destruct (decide (a = b)) as [<-|]; [|by eauto].
    rewrite Hg. simpl. exists (F g). split; [done|].
    intros sl Hsl. by apply HE, Hw.
Qed.

Lemma slots_inv_perm ts ts' (h : gmap addr GameInfo) :
  ts ≡ₚ ts' → slots_inv ts h → slots_inv ts' h.
Proof.
  intros Hp (I1 & I2 & I3). split; [done|]. split.
  - by rewrite <-Hp.
  - intros i a p Hi.
    assert ((a, p) ∈ ts) as [j Hj]%list_elem_of_lookup.
    { rewrite Hp. by eapply list_elem_of_lookup_2. }
    by apply (I3 j).
Qed.

Lemma slots_inv_task_addr ts (h : gmap addr GameInfo) a :
  slots_inv ts h → a ∈ ts.*1 → is_Some (h !! a).
Proof.
  intros (_ & _ & I3) ([b p] & -> & [i Hi]%list_elem_of_lookup)%list_elem_of_fmap.
  destruct (I3 i b p Hi) as (_ & g & Hg & _). by exists g.
Qed.

Section WithoutReuse.

Hypothesis Hnr : no_reuse env.

Local Abbreviation sinv := (slots_invariant env).

Lemma sinv_init : sinv init.
Proof.
  unfold slots_invariant, tasks; simpl. split; [|split].
  - intros a g sl. by rewrite lookup_empty.
  - constructor.
  - intros i a p. by rewrite lookup_nil.
Qed.

Lemma sinv_locked a body s :
  (∀ g tx, (∀ sl, slot_ok sl g) → ∀ sl, slot_ok sl (body g tx).1) →
  (∀ g tx sl, slot_Empty sl g → slot_Empty sl (body g tx).1) →
  sinv s → sinv (locked a body s).
Proof.
  intros Hok HE Hs. unfold slots_invariant, tasks.
  destruct (locked_frame a body s) as (_ & -> & -> & _).
  apply (slots_heap_change _ (heap s) _ a (fun g => (body g (tex s)).1));
    [apply locked_lookup|..|done].
  - intros g. apply Hok.
  - intros g sl. apply HE.
Qed.

Lemma sinv_decode sl a now s :
  sinv s → sinv (locked a (decode_slot env sl now) s).
Proof.
  apply sinv_locked.
  - intros g tx. apply decode_slot_ok.
  - intros g tx sl'. apply decode_slot_Empty.
Qed.

Lemma sinv_fold_flush l : ∀ s,
  sinv s → sinv (foldl (fun s a => locked a flush_bg s) s l).
Proof.
  induction l as [|a l IH]; intros s Hs; simpl; [done|].
  apply IH, sinv_locked; [..|done].
  - intros g tx. rewrite flush_bg_fst. apply flushed_ok.
  - intros g tx sl. rewrite flush_bg_fst. apply flushed_Empty.
Qed.

Lemma sinv_touch a t s : sinv s → sinv (update a (set_lastAccessedTime t) s).
Proof.
  intros Hs. unfold slots_invariant.
  apply (slots_heap_change _ (heap s) _ a (set_lastAccessedTime t));
    [apply update_lookup|..|done].
  - intros g Hok sl. specialize (Hok sl). by destruct sl.
  - intros g sl. by destruct sl.
Qed.

Lemma sinv_again k w s : sinv s → sinv (again env k w s).2.
Proof.
  intros Hs. pose proof Hs as (I1 & I2 & I3).
  destruct (again_spec k w s) as (_ & _ & _ & Hh & Hq & Hw & _).
  assert (heap s !! new_storage env s = None) as Hfresh
    by (by apply not_elem_of_dom, new_storage_fresh).
  set (a := new_storage env s) in *.
  assert (tasks env (again env k w s).2 = tasks env s ++ [(a, run env k)])
    as Ht.
  { unfold tasks. rewrite Hq, Hw, fmap_app. simpl. by rewrite (assoc_L (++)). }
  assert (∀ sl, slot_Empty sl (set_wantBG w new_GameInfo)) as Hnew
    by (by intros []).
  unfold slots_invariant. rewrite Ht, Hh. split; [|split].
  - intros b g sl. rewrite lookup_insert.
    destruct (decide (a = b)) as [<-|]; [|apply I1].
    intros [= <-]. apply slot_Empty_ok, Hnew.
  - rewrite fmap_app. apply NoDup_app. split; [done|]. split.
    + intros b Hb ->%list_elem_of_singleton.
      destruct (slots_inv_task_addr _ _ a Hs Hb) as [g Hg]. congruence.
    + apply NoDup_singleton.
  - intros i b p Hi. apply lookup_app_Some in Hi as [Hi|[_ Hi]].
    + destruct (I3 i b p Hi) as (Honce & g & Hg & HE).
      split; [done|]. exists g. split; [|done].
      rewrite lookup_insert_ne; [done|]. intros <-. congruence.
    + apply list_lookup_singleton_Some in Hi as [_ [= <- <-]].
      split; [apply once_run|]. exists (set_wantBG w new_GameInfo).
      split; [by rewrite lookup_insert_eq|]. intros sl _. apply Hnew.
Qed.

Lemma sinv_GetInfo k w clk s : sinv s → sinv (GetInfo env k w clk s).2.
Proof.
  intros Hs. unfold GetInfo.
  destruct (info_ s !! k) as [a|]; [|by apply sinv_again].
  destruct (heap s !! a) as [g|]; [|done].
  destruct (negb (wantBG g) && w).
  - by apply sinv_again.
  - cbn [snd]. apply sinv_touch.
    apply (sinv_decode Pic1), (sinv_decode Pic0), (sinv_decode Icon), Hs.
Qed.

Lemma sinv_start i s : sinv s → sinv (start env i s).
Proof.
  intros Hs. unfold start.
  destruct (gameInfoWQ_ s !! i) as [item|] eqn:Hi; [|done].
  unfold slots_invariant. simpl. eapply slots_inv_perm; [|exact Hs].
  unfold tasks; simpl.
  rewrite <-(assoc_L (++)). simpl.
  apply Permutation_app_head.
  by rewrite (delete_Permutation (gameInfoWQ_ s) i item Hi) at 1.
Qed.

Lemma slots_inv_sublist ts ts' (h : gmap addr GameInfo) :
  ts' `sublist_of` ts → slots_inv ts h → slots_inv ts' h.
Proof.
  intros Hsub (I1 & I2 & I3). split; [done|]. split.
  - eapply sublist_NoDup; [exact I2|]. by apply fmap_sublist.
  - intros i a p Hi.
    assert ((a, p) ∈ ts) as [j Hj]%list_elem_of_lookup.
    { eapply elem_of_sublist; [|exact Hsub]. by eapply list_elem_of_lookup_2. }
    by apply (I3 j).
Qed.

Lemma sinv_work j s : sinv s → sinv (work env j s).
Proof.
  intros Hs. pose proof Hs as (I1 & I2 & I3). unfold work.
  destruct (workers s !! j) as [[a p]|] eqn:Hj; [|done].
  destruct (heap s !! a) as [g|] eqn:Hg; [|done].
  assert (j < length (workers s)) as Hlen by (by eapply lookup_lt_Some).
  assert (tasks env s !! j = Some (a, p)) as Htj.
  { unfold tasks. by rewrite lookup_app_l. }
  destruct (prog_step env p g) as [[p' g']|] eqn:Hstep.
  - destruct (I3 j a p Htj) as (Honce & g0 & Hg0 & HE).
    assert (g0 = g) as -> by congruence.
    destruct (step_keeps_slots p g p' g' Hstep Honce HE)
      as (Honce' & HE' & Hok'); [intros sl; by apply (I1 a)|].
    unfold slots_invariant, tasks. simpl.
    rewrite <-insert_app_l by done. fold (tasks env s).
    split; [|split].
    + intros b gb sl. rewrite lookup_insert.
      destruct (decide (a = b)) as [<-|]; [|apply I1].
      intros [= <-]. apply Hok'.
    + rewrite list_fmap_insert. simpl. rewrite list_insert_id; [done|].
      by rewrite list_lookup_fmap, Htj.
    + intros i b q Hi.
      destruct (decide (i = j)) as [->|Hne].
      * rewrite list_lookup_insert_eq in Hi
          by (by eapply lookup_lt_Some).
        injection Hi as <- <-. split; [done|]. exists g'.
        by rewrite lookup_insert_eq.
      * rewrite list_lookup_insert_ne in Hi by done.
        destruct (I3 i b q Hi) as (Hq & gb & Hgb & HEb).
        split; [done|]. exists gb. split; [|done].
        rewrite lookup_insert_ne; [done|]. intros <-.
        apply Hne. apply (NoDup_lookup _ i j a I2);
          by rewrite list_lookup_fmap, ?Hi, ?Htj.
  - unfold slots_invariant. simpl. eapply slots_inv_sublist; [|exact Hs].
    unfold tasks; simpl. apply sublist_app; [apply sublist_delete|done].
Qed.

(** Running loaders to their end, one after the other. *)
Lemma run_to_end_heap ts : ∀ s,
  let s' := foldl (fun s w => run_to_end env w s) s ts in
  heap s' = foldl (fun h w => alter (exec env w.2) w.1 h) (heap s) ts ∧
  info_ s' = info_ s ∧ tex s' = tex s ∧ gameInfoWQ_ s' = gameInfoWQ_ s.
Proof.
  induction ts as [|w ts IH]; intros s; simpl; [done|].
  destruct (IH (run_to_end env w s)) as (-> & -> & -> & ->). done.
Qed.

Lemma Flush_spec s :
  heap (Flush env s)
  = foldl (fun h w => alter (exec env w.2) w.1 h) (heap s) (tasks env s) ∧
  workers (Flush env s) = [] ∧ gameInfoWQ_ (Flush env s) = [] ∧
  info_ (Flush env s) = info_ s ∧ tex (Flush env s) = tex s.
Proof.
  unfold Flush, tasks. cbn [heap workers gameInfoWQ_ info_ tex set_workers
    set_gameInfoWQ_].
  set (s1 := foldl (fun s w => run_to_end env w s) s (workers s)).
  destruct (run_to_end_heap (workers s) s) as (H1 & H2 & H3 & H4).
  fold s1 in H1, H2, H3, H4.
  rewrite <-(foldl_fmap (fun s w => run_to_end env w s) s1 _ (task env)).
  destruct (run_to_end_heap (task env <$> gameInfoWQ_ s1) s1)
    as (-> & -> & -> & _).
  rewrite H1, H2, H3, H4, foldl_app. done.
Qed.

Lemma run_all_keeps_slots ts : ∀ h : gmap addr GameInfo,
  slots_inv ts h →
  slots_inv [] (foldl (fun h w => alter (exec env w.2) w.1 h) h ts).
Proof.
  induction ts as [|[a p] ts IH]; intros h Hs; simpl; [done|].
  apply IH. destruct Hs as (I1 & I2 & I3).
  rewrite fmap_cons in I2. apply NoDup_cons in I2 as [Ha I2].
  destruct (I3 0 a p eq_refl) as (Honce & g & Hg & HE).
  split; [|split; [done|]].
  - intros b gb sl. rewrite lookup_alter.
    destruct (decide (a = b)) as [<-|]; [|apply I1].
    rewrite Hg. intros [= <-].
    apply exec_keeps_slots; [done..|]. intros sl'. by apply (I1 a).
  - intros i b q Hi. destruct (I3 (S i) b q Hi) as (Hq & gb & Hgb & HEb).
    split; [done|]. exists gb. split; [|done].
    rewrite lookup_alter_ne; [done|]. intros <-. apply Ha.
    apply list_elem_of_fmap. exists (a, q). split; [done|].
    by eapply list_elem_of_lookup_2.
Qed.

Lemma sinv_Clear s : sinv s → sinv (Clear env s).
Proof.
  intros Hs. unfold Clear.
  set (s1 := Flush env s).
  destruct (Flush_spec s) as (Hh & Hw & Hq & _). fold s1 in Hh, Hw, Hq.
  assert (sinv s1) as Hs1.
  { unfold slots_invariant, tasks. rewrite Hh, Hw, Hq. simpl.
    by apply run_all_keeps_slots. }
  by apply (sinv_fold_flush (records s1)) in Hs1.
Qed.

Lemma sinv_event e s : sinv s → sinv (apply_event env e s).
Proof.
  intros Hs. destruct e; simpl.
  - by apply sinv_GetInfo.
  - by apply sinv_fold_flush.
  - by apply sinv_Clear.
  - by apply sinv_start.
  - by apply sinv_work.
  - by apply sinv_decode.
Qed.

Lemma sinv_reach evs : sinv (reach env evs).
Proof.
  unfold reach. generalize sinv_init. generalize init.
  induction evs as [|e evs IH]; intros s Hs; simpl; [done|].
  by apply IH, sinv_event.
Qed.

(** Where the storage of a deleted Record is never handed out again, no
    slot of any Record holds raw bytes and a decoded handle at once, in any
    state of the cache, whatever the interleaving of lookups, single decode
    sections, flushes and writes of the loaders. *)
Lemma slots_in_order_without_reuse evs a g sl :
  heap (reach env evs) !! a = Some g → slot_ok sl g.
Proof.
  intros Hg. destruct (sinv_reach evs) as (I1 & _). by apply (I1 a).
Qed.

End WithoutReuse.

(** The decode section of a slot always leaves the raw buffer of the slot
    empty, and when its decode succeeds the handle of the slot is set: the
    buffer is cleared by the section that installs the handle. *)
Lemma decode_section_clears_raw sl now g tx :
  let r := decode_slot env sl now g tx in
  slot_data sl r.1 = [] ∧
  (slot_data sl g ≠ [] → LoadPNG env (slot_data sl g) = true →
   is_Some (slot_texture sl r.1)).
Proof.
  intros r. split; [apply decode_slot_clears|].
  intros Hne Hok. subst r.
  destruct (decode_slot_success sl now g tx Hne Hok) as (_ & -> & _).
  by eexists.
Qed.

Lemma decode_slot_wantBG sl now g tx :
  wantBG (decode_slot env sl now g tx).1 = wantBG g.
Proof.
  destruct sl; simpl;
    [unfold decode_icon; destruct (iconTextureData g)
    |unfold decode_pic0; destruct (pic0TextureData g)
    |unfold decode_pic1; destruct (pic1TextureData g)];
    simpl; try done; by destruct (LoadPNG env _).
Qed.

Lemma reach_snoc evs e :
  reach env (evs ++ [e]) = apply_event env e (reach env evs).
Proof. unfold reach, apply_events. by rewrite foldl_app. Qed.

End Properties.

(** ** The statements at concrete inputs, and the inputs at which the
    statements of the spec fail *)

Lemma world_no_reuse : no_reuse world.
Proof. intros s. simpl. apply is_fresh. Qed.

Lemma disc_world_no_reuse : no_reuse disc_world.
Proof. intros s. simpl. apply is_fresh. Qed.

Lemma no_reuse_in_place env : no_reuse env → reuse_in_place_only env.
Proof. intros H s Hd. by apply H in Hd. Qed.

Lemma reuse_in_place_allowed env :
  reuse_in_place_only (with_allocator reuse_in_place env).
Proof.
  intros s. simpl. unfold reuse_in_place.
  destruct (filter (fun a => a ∈ freed s) (records s)) as [|a l] eqn:E.
  - intros Hd. by apply is_fresh in Hd.
  - intros _. apply elem_of_records.
    assert (a ∈ filter (fun a => a ∈ freed s) (records s)) as Ha
      by (rewrite E; apply list_elem_of_here).
    by apply list_elem_of_filter in Ha as [_ Ha].
Qed.

(** The first call creates the Record, a loader runs, another key is looked
    up, the backgrounds are flushed, and two more calls for the same key
    come in. *)
Lemma GetInfo_identity_stable_witness :
  let evs := [EStart 0; EWork 0; EGetInfo "b.PBP" true (clock 2); EFlushBGs;
              EGetInfo "a.PBP" false (clock 3); EWork 0;
              EGetInfo "a.PBP" false (clock 4)] in
  let first := GetInfo world "a.PBP" false (clock 1) init in
  Forall (benign "a.PBP") evs ∧
  Forall (fun r => r = first.1) (returned world "a.PBP" evs first.2) ∧
  info_ (apply_events world evs first.2) !! "a.PBP" = Some first.1.
Proof.
  intros evs first.
  assert (Forall (benign "a.PBP") evs) as Hb.
  { repeat (apply List.Forall_cons;
      [simpl; first [exact I | left; discriminate | right; reflexivity]|]).
    apply List.Forall_nil. }
  split; [exact Hb|].
  exact (GetInfo_identity_stable world "a.PBP" (clock 1) init evs Hb).
Defined.

(** C8 as stated fails: with no [Clear] in between, [GetInfo(k, false)],
    [GetInfo(k, true)], [GetInfo(k, false)] returns two Records.  The
    Record of the first call is deleted by the second call, and the third
    call returns the Record the second call created: at other storage where
    the allocator takes unused storage, and at the same storage where it
    hands the deleted storage out again, in which case what the loader had
    put into the first Record is gone with it. *)
Lemma GetInfo_after_escalation_returns_another_record :
  (let r1 := GetInfo world "a.PBP" false (clock 1) init in
   let r2 := GetInfo world "a.PBP" true (clock 2) r1.2 in
   let r3 := GetInfo world "a.PBP" false (clock 3) r2.2 in
   r1.1 = 0 ∧ r3.1 = 1 ∧ elements (freed r3.2) = [0] ∧
   info_ r3.2 !! "a.PBP" = Some 1) ∧
  (let env := reusing_world in
   let r1 := GetInfo env "a.PBP" false (clock 1) init in
   let loaded :=
     apply_events env [EStart 0; EWork 0; EWork 0; EWork 0; EWork 0] r1.2 in
   let r2 := GetInfo env "a.PBP" true (clock 2) loaded in
   let r3 := GetInfo env "a.PBP" false (clock 3) r2.2 in
   r1.1 = 0 ∧ r3.1 = 0 ∧
   title <$> heap loaded !! 0 = Some "Game" ∧
   wantBG <$> heap loaded !! 0 = Some false ∧
   title <$> heap r3.2 !! 0 = Some "" ∧
   wantBG <$> heap r3.2 !! 0 = Some true).
Proof. vm_compute. repeat split. Qed.

Lemma run_disc_without_device_witness :
  exec world (run world "game.iso") new_GameInfo
  = set_fileType FILETYPE_PSP_ISO new_GameInfo.
Proof.
  apply (run_disc_without_device world "game.iso" new_GameInfo);
    reflexivity.
Defined.

(** C4 as stated fails: the Record does not keep its kind. *)
Lemma run_disc_without_device_mutates :
  constructBlockDevice world "game.iso" = None ∧
  exec world (run world "game.iso") new_GameInfo ≠ new_GameInfo.
Proof. split; [reflexivity|]. vm_compute. discriminate. Qed.

(** A first call creates the Record and leaves its access time alone; a
    second call finds it and stamps it. *)
Lemma GetInfo_access_time_witness :
  let r0 := GetInfo world "a.PBP" false (clock 1) init in
  let r := GetInfo world "a.PBP" false (clock 7) r0.2 in
  (lastAccessedTime <$> heap r0.2 !! r0.1 = Some 0%Z) ∧
  r.1 = 0 ∧
  lastAccessedTime <$> heap r.2 !! 0 = Some 7%Z ∧
  ∀ item, item_info_ item = 0 → priority world item r.2 = Some 7%Z.
Proof.
  intros r0 r. split.
  - apply (proj1 (proj2
             (GetInfo_access_time world "a.PBP" false (clock 1) init))).
    left. reflexivity.
  - apply (proj1 (GetInfo_access_time world "a.PBP" false (clock 7) r0.2)
             0 (set_wantBG false new_GameInfo)); reflexivity.
Defined.

(** C9 as stated fails: the call that creates the Record does not set its
    access time, whatever the clock says. *)
Lemma GetInfo_miss_leaves_access_time :
  let r := GetInfo world "a.PBP" false (clock 7) init in
  info_ init !! "a.PBP" = None ∧
  lastAccessedTime <$> heap r.2 !! r.1 ≠ Some 7%Z ∧
  heap (GetInfo world "a.PBP" false (clock 8) init).2 !! r.1 = heap r.2 !! r.1.
Proof. vm_compute. repeat split; [discriminate]. Qed.

(** C2 at a failing input.  A PBP with a good icon and a background the PNG
    loader rejects is looked up with backgrounds wanted, its loader runs to
    the end, and the Record is looked up again.  The icon decodes, then the
    failed decode of the background leaves the background handle set and
    deletes and clears the icon handle instead. *)
Theorem failed_background_decode_hits_icon :
  let loaded :=
    apply_events world
      [EGetInfo "a.PBP" true (clock 1); EStart 0;
       EWork 0; EWork 0; EWork 0; EWork 0; EWork 0; EWork 0] init in
  let after_icon := locked 0 (decode_icon world 2) loaded in
  let decoded := (GetInfo world "a.PBP" true (clock 2) loaded).2 in
  (iconTextureData <$> heap loaded !! 0 = Some [x02; x03] ∧
   pic1TextureData <$> heap loaded !! 0 = Some [x04] ∧
   LoadPNG world [x02; x03] = true ∧ LoadPNG world [x04] = false) ∧
  (iconTexture <$> heap after_icon !! 0 = Some (Some 0) ∧
   elements (live (tex after_icon)) = [0]) ∧
  (pic1TextureData <$> heap decoded !! 0 = Some [] ∧
   pic1Texture <$> heap decoded !! 0 = Some (Some 1) ∧
   iconTexture <$> heap decoded !! 0 = Some None ∧
   elements (live (tex decoded)) = [1]).
Proof. vm_compute. repeat split. Qed.

(** C3 at a failing input.  A PBP is looked up, loaded and looked up again,
    which decodes its icon; then the cache is cleared.  The map is empty,
    but the icon texture is still there, and no pointer to its Record is
    left in the cache. *)
Theorem Clear_leaves_icon_texture :
  let decoded :=
    apply_events world
      [EGetInfo "a.PBP" false (clock 1); EStart 0;
       EWork 0; EWork 0; EWork 0; EWork 0; EWork 0;
       EGetInfo "a.PBP" false (clock 2)] init in
  let cleared := Clear world decoded in
  iconTexture <$> heap decoded !! 0 = Some (Some 0) ∧
  map_to_list (info_ cleared) = [] ∧
  gameInfoWQ_ cleared = [] ∧ workers cleared = [] ∧
  iconTexture <$> heap cleared !! 0 = Some (Some 0) ∧
  elements (live (tex cleared)) = [0].
Proof. vm_compute. repeat split. Qed.

(** C1 at a failing input.  [GetInfo(k, false)] then [GetInfo(k, true)]:
    the map holds one Record for [k], with [wantBG] set, and the first
    Record was deleted; but the work item bound to the deleted Record is
    still queued, and when it runs it writes the kind into the deleted
    storage. *)
Theorem loader_writes_into_deleted_record :
  let escalated :=
    apply_events world
      [EGetInfo "a.elf" false (clock 1); EGetInfo "a.elf" true (clock 2)]
      init in
  let later := apply_events world [EStart 0; EWork 0] escalated in
  (map_to_list (info_ escalated) = [("a.elf", 1)] ∧
   wantBG <$> heap escalated !! 1 = Some true ∧
   elements (freed escalated) = [0]) ∧
  gameInfoWQ_ escalated
  = [{| gamePath_ := "a.elf"; item_info_ := 0 |};
     {| gamePath_ := "a.elf"; item_info_ := 1 |}] ∧
  fileType <$> heap escalated !! 0 = Some FILETYPE_UNKNOWN ∧
  elements (freed later) = [0] ∧
  fileType <$> heap later !! 0 = Some FILETYPE_PSP_ELF.
Proof. vm_compute. repeat split. Qed.

(** C6 at a failing input, through the defect of C1.  A disc image is
    looked up without backgrounds and then with; the allocator hands the
    storage of the deleted Record out for the new one, so both work items
    are bound to it.  One of them runs to the end and the next lookup
    decodes what it loaded: the icon slot holds a handle and no bytes.  Then
    the other work item runs, and after its second write the icon slot of
    the Record the map holds has raw bytes and a decoded handle at once. *)
Theorem stale_loader_refills_decoded_slot :
  let env := reusing_disc_world in
  let escalated :=
    apply_events env
      [EGetInfo "g.iso" false (clock 1); EGetInfo "g.iso" true (clock 2)]
      init in
  let decoded :=
    apply_events env
      [EStart 1; EWork 0; EWork 0; EWork 0; EWork 0; EWork 0; EWork 0;
       EGetInfo "g.iso" true (clock 3)] escalated in
  let later := apply_events env [EStart 0; EWork 0; EWork 0] decoded in
  (map_to_list (info_ escalated) = [("g.iso", 0)] ∧
   elements (freed escalated) = [] ∧
   gameInfoWQ_ escalated
   = [{| gamePath_ := "g.iso"; item_info_ := 0 |};
      {| gamePath_ := "g.iso"; item_info_ := 0 |}]) ∧
  (iconTextureData <$> heap decoded !! 0 = Some [] ∧
   iconTexture <$> heap decoded !! 0 = Some (Some 0) ∧
   workers decoded = []) ∧
  (map_to_list (info_ later) = [("g.iso", 0)] ∧
   iconTextureData <$> heap later !! 0 = Some [x05; x06] ∧
   iconTexture <$> heap later !! 0 = Some (Some 0)) ∧
  ∃ g, heap later !! 0 = Some g ∧ ¬ slot_ok Icon g.
Proof.
  vm_compute. repeat split.
  eexists. split; [reflexivity|]. intros H. apply H. split; discriminate.
Qed.


(** C7 as stated fails, in two ways.  A key can end in .elf and start with
    ms0:/PSP/GAME, and then the loader does not set the kind.  And, through
    the defect of C1, the Record of an executable can take over the storage
    of a deleted Record whose work item is still queued, and is then loaded
    with the title and the icon of that other game. *)
Lemma executable_record_counterexamples :
  (let path := "ms0:/PSP/GAME/a.elf" in
   endsWith path ".elf" = true ∧
   fileType (exec world (run world path) new_GameInfo) ≠ FILETYPE_PSP_ELF) ∧
  (let evs := [EGetInfo "b.PBP" false (clock 1);
               EGetInfo "b.PBP" true (clock 2);
               EGetInfo "a.elf" false (clock 3);
               EStart 0; EWork 0; EWork 0; EWork 0] in
   let s := reach late_reusing_world evs in
   info_ s !! "a.elf" = Some 0 ∧
   fileType <$> heap s !! 0 = Some FILETYPE_PSP_PBP ∧
   title <$> heap s !! 0 = Some "Game" ∧
   iconTextureData <$> heap s !! 0 = Some [x02; x03]).
Proof.
  split; [split; [reflexivity|vm_compute; discriminate]|].
  vm_compute. repeat split.
Qed.

(** The background handles of a loaded and decoded disc image are what
    [FlushBGs] deletes. *)
Lemma FlushBGs_only_backgrounds_witness :
  let s := reach disc_world
             [EGetInfo "g.iso" true (clock 1); EStart 0;
              EWork 0; EWork 0; EWork 0; EWork 0; EWork 0; EWork 0;
              EGetInfo "g.iso" true (clock 2)] in
  info_ s !! "g.iso" = Some 0 ∧
  handles <$> heap s !! 0 = Some (Some 0, Some 1, Some 2) ∧
  heap (FlushBGs s) !! 0 = flushed <$> heap s !! 0 ∧
  1 ∈ deleted (tex (FlushBGs s)) ∧ 2 ∈ deleted (tex (FlushBGs s)) ∧
  (0 ∉ deleted (tex (FlushBGs s))).
Proof.
  intros s.
  destruct (FlushBGs_only_backgrounds s)
    as (_ & _ & _ & _ & Hmap & _ & _ & _ & Hdel).
  assert (info_ s !! "g.iso" = Some 0) as Hk by (vm_compute; reflexivity).
  destruct (heap s !! 0) as [g|] eqn:Hg; [|by vm_compute in Hg].
  assert (handles g = (Some 0, Some 1, Some 2)) as Hh.
  { pose proof Hg as Hg'. vm_compute in Hg'. injection Hg' as <-.
    reflexivity. }
  unfold handles in Hh. injection Hh as Hi H0 H1.
  split; [exact Hk|]. split; [unfold handles; simpl; congruence|].
  split; [rewrite (Hmap "g.iso" 0 Hk), Hg; reflexivity|].
  split; [apply Hdel; right; exists "g.iso", 0, g; auto|].
  split; [apply Hdel; right; exists "g.iso", 0, g; auto|].
  vm_compute. intros H. discriminate H.
Defined.

(** * Invariants of the cache, and further properties of the code *)

Section MoreProperties.

Variable env : Collaborators.

(** ** What a loader writes *)

Lemma apply_action_keeps a g :
  handles (apply_action env a g) = handles g ∧
  wantBG (apply_action env a g) = wantBG g ∧
  lastAccessedTime (apply_action env a g) = lastAccessedTime g ∧
  (∀ sl, slot_time sl (apply_action env a g) = slot_time sl g).
Proof.
  destruct a as [t|d|sl d|sl n d]; simpl; repeat split;
    try (by destruct sl); by intros [].
Qed.

Lemma exec_keeps p : ∀ g,
  handles (exec env p g) = handles g ∧
  wantBG (exec env p g) = wantBG g ∧
  lastAccessedTime (exec env p g) = lastAccessedTime g ∧
  (∀ sl, slot_time sl (exec env p g) = slot_time sl g).
Proof.
  induction p as [|a k IH|kt IHt kf IHf]; intros g; simpl.
  - done.
  - destruct (IH (apply_action env a g)) as (-> & -> & -> & Ht).
    destruct (apply_action_keeps a g) as (-> & -> & -> & Ht').
    repeat split. intros sl. by rewrite Ht, Ht'.
  - destruct (wantBG g) eqn:E; rewrite <-E; [apply IHt|apply IHf].
Qed.

Lemma exec_handles p g : handles (exec env p g) = handles g.
Proof. apply exec_keeps. Qed.

Lemma exec_wantBG p g : wantBG (exec env p g) = wantBG g.
Proof. apply exec_keeps. Qed.

(** X1.  A loader only writes the kind, the metadata and the raw buffers:
    whatever its program, a run leaves the three decoded handles, [wantBG],
    the access time and the decode timestamps of the Record as they were. *)
Theorem exec_keeps_foreground_fields p g :
  iconTexture (exec env p g) = iconTexture g ∧
  pic0Texture (exec env p g) = pic0Texture g ∧
  pic1Texture (exec env p g) = pic1Texture g ∧
  wantBG (exec env p g) = wantBG g ∧
  lastAccessedTime (exec env p g) = lastAccessedTime g ∧
  timeIconWasLoaded (exec env p g) = timeIconWasLoaded g ∧
  timePic0WasLoaded (exec env p g) = timePic0WasLoaded g ∧
  timePic1WasLoaded (exec env p g) = timePic1WasLoaded g.
Proof.
  destruct (exec_keeps p g) as (Hh & Hw & Hl & Ht).
  unfold handles in Hh. injection Hh as Hi H0 H1.
  repeat split; try done; [apply (Ht Icon)|apply (Ht Pic0)|apply (Ht Pic1)].
Qed.

(** ** [ReadFileToString] *)

Lemma resize_and_read_length n data old :
  length (resize_and_read n data old) = n.
Proof.
  unfold resize_and_read.
  rewrite length_app, length_drop, length_resize, length_take. lia.
Qed.

Lemma resize_and_read_prefix n data old :
  take (length data `min` n) (resize_and_read n data old) = take n data.
Proof.
  unfold resize_and_read.
  rewrite take_app_length'; [done|]. rewrite length_take. lia.
Qed.

(** X2.  [ReadFileToString] fails, leaving the contents alone, exactly when
    the file does not exist or cannot be opened; when it succeeds the
    contents end up with exactly the size the file system reports, whatever
    the buffer held and however many bytes were read, and begin with the
    bytes read. *)
Theorem ReadFileToString_spec bd filename :
  let info := GetFileInfo env bd filename in
  match ReadFileToString env bd filename with
  | None => exists_ info = false ∨ OpenFile env bd filename = 0
  | Some (n, data) =>
      exists_ info = true ∧ OpenFile env bd filename ≠ 0 ∧
      n = size info ∧
      data = ReadFile env bd (OpenFile env bd filename) (size info) ∧
      ∀ old,
        length (resize_and_read n data old) = size info ∧
        take (length data `min` n) (resize_and_read n data old) = take n data
  end.
Proof.
  intros info. unfold ReadFileToString. fold info.
  destruct (exists_ info); simpl; [|by left].
  destruct (OpenFile env bd filename =? 0)%nat eqn:E.
  - right. by apply Nat.eqb_eq.
  - apply Nat.eqb_neq in E. repeat split; try done.
    + apply resize_and_read_length.
    + apply resize_and_read_prefix.
Qed.

(** ** The map never dangles *)

Lemma run_all_dom ts : ∀ h : gmap addr GameInfo,
  dom (foldl (fun h w => alter (exec env w.2) w.1 h) h ts) = dom h.
Proof.
  induction ts as [|w ts IH]; intros h; simpl; [done|].
  rewrite IH. apply set_eq; intros b.
  rewrite !elem_of_dom, lookup_alter.
  destruct (decide (w.1 = b)) as [<-|]; [|done]. by rewrite fmap_is_Some.
Qed.

Lemma run_to_end_freed ts : ∀ s,
  freed (foldl (fun s w => run_to_end env w s) s ts) = freed s.
Proof. induction ts as [|w ts IH]; intros s; simpl; [done|]. by rewrite IH. Qed.

Lemma Flush_frame s :
  dom (heap (Flush env s)) = dom (heap s) ∧ freed (Flush env s) = freed s.
Proof.
  split.
  - rewrite (proj1 (Flush_spec env s)). apply run_all_dom.
  - unfold Flush. cbn [freed set_workers set_gameInfoWQ_].
    rewrite <-(foldl_fmap (fun s w => run_to_end env w s) _ _ (task env)).
    by rewrite !run_to_end_freed.
Qed.

Lemma Clear_frame s :
  info_ (Clear env s) = ∅ ∧ gameInfoWQ_ (Clear env s) = [] ∧
  workers (Clear env s) = [] ∧ freed (Clear env s) = freed s ∧
  dom (heap (Clear env s)) = dom (heap s).
Proof.
  unfold Clear. set (s1 := Flush env s).
  destruct (fold_locked_frame flush_bg (records s1) s1)
    as (_ & Hq & Hw & Hf & Hd).
  destruct (Flush_spec env s) as (_ & Hw1 & Hq1 & _).
  destruct (Flush_frame s) as [Hd1 Hf1].
  cbn [info_ gameInfoWQ_ workers freed heap set_info_].
  rewrite Hq, Hw, Hf, Hd. fold s1 in Hw1, Hq1, Hd1, Hf1.
  by rewrite Hq1, Hw1, Hf1, Hd1.
Qed.

Lemma work_frame j s :
  freed (work env j s) = freed s ∧ tex (work env j s) = tex s ∧
  gameInfoWQ_ (work env j s) = gameInfoWQ_ s ∧
  dom (heap (work env j s)) = dom (heap s).
Proof.
  unfold work. destruct (workers s !! j) as [[a p]|]; [|done].
  destruct (heap s !! a) as [g|] eqn:Hg; [|done].
  destruct (prog_step env p g) as [[p' g']|]; [|done]. simpl.
  repeat split. rewrite dom_insert_L. apply elem_of_dom_2 in Hg. set_solver.
Qed.

Lemma start_frame i s :
  heap (start env i s) = heap s ∧ freed (start env i s) = freed s ∧
  tex (start env i s) = tex s.
Proof. unfold start. by destruct (gameInfoWQ_ s !! i). Qed.

Lemma map_inv_frame s s' :
  info_ s' = info_ s → freed s' = freed s → dom (heap s') = dom (heap s) →
  map_inv s → map_inv s'.
Proof. unfold map_inv. by intros -> -> ->. Qed.

Lemma map_inv_again k w s F :
  F = freed s ∨ (∃ a, info_ s !! k = Some a ∧ F = {[a]} ∪ freed s) →
  map_inv s → map_inv (again env k w (set_freed F s)).2.
Proof.
  intros HF (M1 & M2 & M3).
  destruct (again_spec env k w (set_freed F s))
    as (_ & Ha & Hi & Hh & _ & _ & Hf & _).
  set (a := new_storage env (set_freed F s)) in *.
  unfold map_inv. rewrite Hi, Hh, Hf. clear Hi Hh Hf.
  unfold allocated in Ha. simpl in Ha |- *. rewrite dom_insert_L.
  assert (F ⊆ dom (heap s)) as HFd.
  { destruct HF as [->|(b & Hb & ->)]; [done|].
    apply M2 in Hb as [Hb _]. set_solver. }
  assert (∀ k' a', k' ≠ k → info_ s !! k' = Some a' →
            a' ∈ dom (heap s) ∧ a' ∉ F) as Hother.
  { intros k' a' Hne Hk'. destruct (M2 k' a' Hk') as [Hd Hf']. split; [done|].
    destruct HF as [->|(b & Hb & ->)]; [done|].
    apply not_elem_of_union. split; [|done].
    intros ->%elem_of_singleton. by apply Hne, (M3 k' k b). }
  split; [set_solver|]. split.
  - intros k' a'. rewrite lookup_insert.
    destruct (decide (k = k')) as [<-|Hne].
    + intros [= <-]. set_solver.
    + intros Hk'. destruct (Hother k' a') as [Hd Hf']; [done..|]. set_solver.
  - intros k1 k2 b. rewrite !lookup_insert.
    destruct (decide (k = k1)) as [<-|H1], (decide (k = k2)) as [<-|H2];
      try done.
    + intros [= <-] Hb. destruct (Hother k2 a) as [Hd Hf']; [done..|].
      exfalso. apply Ha. set_solver.
    + intros Hb [= <-]. destruct (Hother k1 a) as [Hd Hf']; [done..|].
      exfalso. apply Ha. set_solver.
    + apply M3.
Qed.

Lemma map_inv_GetInfo k w clk s : map_inv s → map_inv (GetInfo env k w clk s).2.
Proof.
  intros Hs. unfold GetInfo.
  destruct (info_ s !! k) as [a|] eqn:Hk.
  - destruct (heap s !! a) as [g|]; [|done].
    destruct (negb (wantBG g) && w).
    + apply (map_inv_again k w s ({[a]} ∪ freed s)); [|done]. right. eauto.
    + cbn [snd]. eapply map_inv_frame; [..|exact Hs].
      * cbn [info_ update set_heap].
        by rewrite !(proj1 (locked_frame _ _ _)).
      * cbn [freed update set_heap].
        by rewrite !(proj2 (proj2 (proj2 (locked_frame _ _ _)))).
      * by rewrite update_dom, !locked_dom.
  - replace s with (set_freed (freed s) s) at 1 by (by destruct s).
    apply map_inv_again; [by left|done].
Qed.

Lemma map_inv_event e s : map_inv s → map_inv (apply_event env e s).
Proof.
  intros Hs. destruct e as [k w clk| | |i|j|sl a now]; simpl.
  - by apply map_inv_GetInfo.
  - destruct (fold_locked_frame flush_bg (records s) s)
      as (? & _ & _ & ? & ?).
    by eapply map_inv_frame; [..|exact Hs].
  - destruct (Clear_frame s) as (Hi & _ & _ & Hf & Hd).
    destruct Hs as (M1 & _). unfold map_inv. rewrite Hi, Hf, Hd.
    split; [done|]. split; intros *; by rewrite lookup_empty.
  - destruct (start_frame i s) as (Hh & ? & _).
    eapply map_inv_frame; [apply start_info_|done|by rewrite Hh|done].
  - destruct (work_frame j s) as (? & _ & _ & ?).
    eapply map_inv_frame; [apply work_info_|done..].
  - destruct (locked_frame a (decode_slot env sl now) s) as (? & _ & _ & ?).
    eapply map_inv_frame; [done|done|apply locked_dom|done].
Qed.

Lemma map_inv_reach evs : map_inv (reach env evs).
Proof.
  unfold reach.
  assert (map_inv init) as H0.
  { split; [done|]. split; intros *; simpl; by rewrite lookup_empty. }
  revert H0. generalize init.
  induction evs as [|e evs IH]; intros s Hs; simpl; [done|].
  by apply IH, map_inv_event.
Qed.

(** X3.  In every state of the cache, a pointer held by the map leads to a
    Record that exists and was not deleted, and no Record is held under two
    keys: the Record deleted by an escalation is replaced in the map by a
    new one in the same call. *)
Theorem map_never_dangles evs k a :
  info_ (reach env evs) !! k = Some a →
  is_Some (heap (reach env evs) !! a) ∧
  (a ∉ freed (reach env evs)) ∧
  ∀ k', info_ (reach env evs) !! k' = Some a → k' = k.
Proof.
  intros Hk. destruct (map_inv_reach evs) as (_ & M2 & M3).
  destruct (M2 k a Hk) as [Hd Hf].
  split; [by apply elem_of_dom|]. split; [done|].
  intros k' Hk'. by apply (M3 k' k a).
Qed.

(** The map only holds pointers to Records that were created. *)
Lemma map_pointers_valid evs k a :
  info_ (reach env evs) !! k = Some a → is_Some (heap (reach env evs) !! a).
Proof.
  intros Hk. destruct (map_inv_reach evs) as (_ & M2 & _).
  apply elem_of_dom. by apply (M2 k).
Qed.

(** The part of C1 the code does keep: after [GetInfo(k, false)] and then
    [GetInfo(k, true)] the map holds a Record for [k], and it wants
    backgrounds. *)
Lemma escalation_replaces_record evs k clk1 clk2 :
  let s1 := (GetInfo env k false clk1 (reach env evs)).2 in
  let r := GetInfo env k true clk2 s1 in
  info_ r.2 !! k = Some r.1 ∧
  ∃ g, heap r.2 !! r.1 = Some g ∧ wantBG g = true.
Proof.
  intros s1 r. split; [apply GetInfo_entry|].
  assert (s1 = reach env (evs ++ [EGetInfo k false clk1])) as Hs1
    by (by rewrite reach_snoc).
  pose proof (GetInfo_entry env k false clk1 (reach env evs)) as Hk.
  fold s1 in Hk.
  destruct (map_pointers_valid (evs ++ [EGetInfo k false clk1]) k _
              ltac:(rewrite <-Hs1; exact Hk)) as [g1 Hg1].
  rewrite <-Hs1 in Hg1. subst r. unfold GetInfo. rewrite Hk, Hg1.
  destruct (wantBG g1) eqn:Hbg; cbn [negb andb fst snd].
  - rewrite update_lookup, decide_True by done.
    rewrite !locked_lookup, !decide_True by done. rewrite Hg1. simpl.
    eexists. split; [done|]. simpl.
    pose proof (decode_slot_wantBG env Icon) as Hi.
    pose proof (decode_slot_wantBG env Pic0) as H0.
    pose proof (decode_slot_wantBG env Pic1) as H1.
    simpl in Hi, H0, H1. by rewrite H1, H0, Hi.
  - simpl. rewrite lookup_insert_eq. by eexists.
Qed.

(** ** Records whose loader writes (next to) nothing *)

Lemma all_actions_step ok p g p' g' :
  prog_step env p g = Some (p', g') → all_actions ok p →
  all_actions ok p' ∧
  (g' = g ∨ ∃ a, ok a ∧ g' = apply_action env a g).
Proof.
  destruct p as [|a k|kt kf]; simpl; intros H Hall; [done| |].
  - injection H as <- <-. destruct Hall. split; [done|]. right. eauto.
  - injection H as <- <-. destruct Hall. split; [|by left].
    by destruct (wantBG g).
Qed.

Lemma new_storage_in_place s :
  reuse_in_place_only env →
  new_storage env s ∉ dom (heap s) ∨
  ∃ k, info_ s !! k = Some (new_storage env s).
Proof.
  intros H. unfold new_storage. destruct (decide _) as [_|Hn].
  - left. apply is_fresh.
  - destruct (decide (operator_new env s ∈ dom (heap s))) as [Hd|Hd];
      [right; by apply H|by left].
Qed.

(** Where storage is handed out again only in place, the storage of a new
    Record is unused on a miss, and unused or that of the Record just
    deleted on an escalation. *)
Lemma new_storage_miss s :
  reuse_in_place_only env → map_inv s →
  new_storage env s ∉ dom (heap s).
Proof.
  intros H (_ & M2 & _).
  destruct (new_storage_in_place s H) as [Hd|(k' & Hk')]; [done|].
  destruct (M2 k' _ Hk') as [Hd Hf].
  destruct (new_storage_spec env s). unfold allocated. set_solver.
Qed.

Lemma new_storage_escalation s k a :
  reuse_in_place_only env → map_inv s → info_ s !! k = Some a →
  new_storage env (delete_GameInfo a s) ∉ dom (heap s) ∨
  new_storage env (delete_GameInfo a s) = a.
Proof.
  intros H (_ & M2 & _) Hk.
  pose proof (new_storage_spec env (delete_GameInfo a s)) as Hn.
  destruct (new_storage_in_place (delete_GameInfo a s) H)
    as [Hd|(k' & Hk')]; [by left|].
  right. set (a' := new_storage env (delete_GameInfo a s)) in *.
  change (info_ s !! k' = Some a') in Hk'.
  destruct (M2 k' a' Hk') as [Hd Hf].
  destruct (decide (a' = a)) as [|Hne]; [done|].
  destruct Hn. unfold allocated. simpl. set_solver.
Qed.

Section Quiet.

Variable K : string → Prop.
Variable ok : action → Prop.
Variable R : GameInfo → Prop.

Hypothesis HK : ∀ k, K k → all_actions ok (run env k).
Hypothesis HR_new : ∀ w, R (set_wantBG w new_GameInfo).
Hypothesis HR_act : ∀ a g, ok a → R g → R (apply_action env a g).
Hypothesis HR_raw : ∀ g sl, R g → slot_data sl g = [].
Hypothesis HR_flush : ∀ g, R g → R (flushed g).
Hypothesis HR_time : ∀ g t, R g → R (set_lastAccessedTime t g).
Hypothesis Hnew : reuse_in_place_only env.

Local Abbreviation inv := (quiet_inv K ok R).

Lemma quiet_init : inv init.
Proof.
  repeat split; simpl; intros *; try (by intros ?%elem_of_nil).
  - by rewrite lookup_empty.
  - intros _. by rewrite lookup_empty.
Qed.

Lemma quiet_heap_change s s' a F :
  info_ s' = info_ s → gameInfoWQ_ s' = gameInfoWQ_ s →
  workers s' = workers s →
  (∀ b, heap s' !! b
        = if decide (a = b) then F <$> heap s !! b else heap s !! b) →
  (∀ g, R g → R (F g)) →
  inv s → inv s'.
Proof.
  intros Hi Hq Hw Hh HF (I1 & I2 & I3 & I4 & I5 & I6).
  assert (dom (heap s') = dom (heap s)) as Hdom.
  { apply set_eq; intros b. rewrite !elem_of_dom, Hh.
    destruct (decide (a = b)); [|done]. by rewrite fmap_is_Some. }
  unfold quiet_inv. rewrite Hi, Hq, Hw, Hdom.
  repeat split; try done.
  intros k b Hk Hb. destruct (I6 k b Hk Hb) as (g & Hg & HRg).
  rewrite Hh. destruct (decide (a = b)) as [->|]; [|by eauto].
  rewrite Hg. simpl. eauto.
Qed.

Lemma quiet_locked a body s :
  (∀ g tx, R g → R (body g tx).1) → inv s → inv (locked a body s).
Proof.
  intros Hb. destruct (locked_frame a body s) as (? & ? & ? & ?).
  apply (quiet_heap_change s _ a (fun g => (body g (tex s)).1)); try done.
  - apply locked_lookup.
  - intros g. apply Hb.
Qed.

Lemma quiet_update a f s :
  (∀ g, R g → R (f g)) → inv s → inv (update a f s).
Proof.
  intros Hf.
  apply (quiet_heap_change s _ a f); try done. apply update_lookup.
Qed.

Lemma quiet_decode sl a now s :
  inv s → inv (locked a (decode_slot env sl now) s).
Proof.
  apply quiet_locked. intros g tx HR.
  by rewrite decode_slot_idle by (by apply HR_raw).
Qed.

Lemma quiet_fold_flush l : ∀ s,
  inv s → inv (foldl (fun s a => locked a flush_bg s) s l).
Proof.
  induction l as [|a l IH]; intros s Hs; simpl; [done|].
  apply IH, quiet_locked; [|done].
  intros g tx HR. rewrite flush_bg_fst. by apply HR_flush.
Qed.

(** The new Record is at unused storage, or it takes the place of the
    Record the map holds for the same key: the work items bound to that
    one were queued for the same key. *)
Lemma quiet_again k w s :
  new_storage env s ∉ dom (heap s) ∨ info_ s !! k = Some (new_storage env s) →
  (∀ k1 k2 b, info_ s !! k1 = Some b → info_ s !! k2 = Some b → k1 = k2) →
  inv s → inv (again env k w s).2.
Proof.
  intros Hcase Hinj (I1 & I2 & I3 & I4 & I5 & I6).
  destruct (again_spec env k w s) as (_ & _ & Hi & Hh & Hq & Hw & _).
  set (a := new_storage env s) in *.
  unfold quiet_inv. rewrite Hi, Hh, Hq, Hw, dom_insert_L.
  clear Hi Hh Hq Hw.
  destruct Hcase as [Ha|Hka].
  - split; [|split; [|split; [|split; [|split]]]].
    + intros k' a'. rewrite lookup_insert.
      destruct (decide (k = k')) as [->|].
      * intros Heq. injection Heq as <-. set_solver.
      * intros ?%I1. set_solver.
    + intros item [?%I2| ->%list_elem_of_singleton]%elem_of_app;
        simpl; set_solver.
    + intros b p ?%I3. set_solver.
    + intros item k' [Hin| ->%list_elem_of_singleton]%elem_of_app;
        rewrite lookup_insert; destruct (decide (k = k')) as [->|Hne]; simpl.
      * intros [= Heq]. apply I2 in Hin. congruence.
      * by apply I4.
      * done.
      * intros ?%I1. done.
    + intros b p k' Hin HK'. rewrite lookup_insert.
      destruct (decide (k = k')) as [->|Hne].
      * intros [= Heq]. apply I3 in Hin. congruence.
      * by apply I5.
    + intros k' b HK'. rewrite lookup_insert.
      destruct (decide (k = k')) as [->|Hne].
      * intros [= <-]. rewrite lookup_insert_eq. eauto.
      * intros Hb. rewrite lookup_insert_ne; [by eauto|].
        intros <-. by apply I1 in Hb.
  - rewrite (insert_id (info_ s) k a Hka).
    split; [|split; [|split; [|split; [|split]]]].
    + intros k' a' ?%I1. set_solver.
    + intros item [?%I2| ->%list_elem_of_singleton]%elem_of_app;
        simpl; set_solver.
    + intros b p ?%I3. set_solver.
    + intros item k' [Hin| ->%list_elem_of_singleton]%elem_of_app; simpl.
      * by apply I4.
      * intros Hk'. by apply (Hinj k' k a).
    + exact I5.
    + intros k' b HK' Hb. rewrite lookup_insert.
      destruct (decide (a = b)) as [<-|Hne]; [by eauto|].
      by apply (I6 k').
Qed.

Lemma quiet_delete_GameInfo a s : inv s → inv (delete_GameInfo a s).
Proof. done. Qed.

Lemma quiet_GetInfo k w clk s :
  map_inv s → inv s → inv (GetInfo env k w clk s).2.
Proof.
  intros Hm Hs. pose proof Hm as (_ & _ & M3). unfold GetInfo.
  destruct (info_ s !! k) as [a|] eqn:Hk.
  - destruct (heap s !! a) as [g|]; [|done].
    destruct (negb (wantBG g) && w).
    + apply quiet_again; [|exact M3|by apply quiet_delete_GameInfo].
      destruct (new_storage_escalation s k a Hnew Hm Hk) as [Hd| ->];
        [by left|by right].
    + cbn [snd]. apply quiet_update; [by intros; apply HR_time|].
      apply (quiet_decode Pic1), (quiet_decode Pic0), (quiet_decode Icon), Hs.
  - apply quiet_again; [|exact M3|done].
    left. by apply new_storage_miss.
Qed.

Lemma quiet_Clear s : inv (Clear env s).
Proof.
  unfold Clear.
  set (s1 := Flush env s).
  destruct (fold_locked_frame flush_bg (records s1) s1) as (_ & Hq & Hw & _).
  repeat split; simpl; intros *; rewrite ?lookup_empty, ?Hq, ?Hw; try done;
    by intros ?%elem_of_nil.
Qed.

Lemma quiet_start i s : inv s → inv (start env i s).
Proof.
  intros (I1 & I2 & I3 & I4 & I5 & I6). unfold start.
  destruct (gameInfoWQ_ s !! i) as [item|] eqn:Hi; [|done].
  assert (item ∈ gameInfoWQ_ s) as Hin by (by eapply list_elem_of_lookup_2).
  repeat split; simpl; try done.
  - intros it ?%list_elem_of_delete_inv. by apply I2.
  - intros a p [?| [= -> ->]%list_elem_of_singleton]%elem_of_app;
      [by eapply I3|by apply I2].
  - intros it k ?%list_elem_of_delete_inv. by apply I4.
  - intros a p k [?| [= -> ->]%list_elem_of_singleton]%elem_of_app HKk Hk;
      [by eapply I5|].
    rewrite <-(I4 item k Hin Hk). by apply HK.
Qed.

Lemma quiet_work j s : inv s → inv (work env j s).
Proof.
  intros Hs. pose proof Hs as (I1 & I2 & I3 & I4 & I5 & I6). unfold work.
  destruct (workers s !! j) as [[a p]|] eqn:Hj; [|done].
  assert ((a, p) ∈ workers s) as Hin by (by eapply list_elem_of_lookup_2).
  destruct (heap s !! a) as [g|] eqn:Hg; [|done].
  destruct (prog_step env p g) as [[p' g']|] eqn:Hstep.
  - assert (dom (<[a:=g']> (heap s)) = dom (heap s)) as Hdom.
    { rewrite dom_insert_L. apply elem_of_dom_2 in Hg. set_solver. }
    unfold quiet_inv. simpl. rewrite Hdom.
    repeat split; try done.
    + intros b q [[= -> ->]|?]%elem_of_list_insert_inv; by eapply I3.
    + intros b q k [[= -> ->]|?]%elem_of_list_insert_inv HKk Hk;
        [|by eapply I5].
      by apply (all_actions_step ok p g p' g' Hstep), (I5 a p k).
    + intros k b HKk Hk. rewrite lookup_insert.
      destruct (decide (a = b)) as [<-|]; [|by apply (I6 k)].
      destruct (I6 k a HKk Hk) as (g0 & Hg0 & HR0).
      assert (g0 = g) as -> by congruence.
      exists g'. split; [done|].
      destruct (all_actions_step ok p g p' g' Hstep (I5 a p k Hin HKk Hk))
        as (_ & [->|(act & Hok & ->)]); [done|by apply HR_act].
  - unfold quiet_inv. simpl. repeat split; try done.
    + intros b q ?%list_elem_of_delete_inv. by eapply I3.
    + intros b q k ?%list_elem_of_delete_inv. by eapply I5.
Qed.

Lemma quiet_event e s : map_inv s → inv s → inv (apply_event env e s).
Proof.
  intros Hm Hs. destruct e; simpl.
  - by apply quiet_GetInfo.
  - by apply quiet_fold_flush.
  - apply quiet_Clear.
  - by apply quiet_start.
  - by apply quiet_work.
  - by apply quiet_decode.
Qed.

Lemma quiet_reach evs : inv (reach env evs).
Proof.
  unfold reach.
  assert (map_inv init ∧ inv init) as H0
    by (split; [apply (map_inv_reach [])|apply quiet_init]).
  revert H0. generalize init.
  induction evs as [|e evs IH]; intros s [Hm Hs]; simpl; [done|].
  apply IH. split; [by apply map_inv_event|by apply quiet_event].
Qed.

Lemma quiet_forever evs k a :
  K k → info_ (reach env evs) !! k = Some a →
  ∃ g, heap (reach env evs) !! a = Some g ∧ R g.
Proof.
  intros HKk Hk. destruct (quiet_reach evs) as (_ & _ & _ & _ & _ & I6).
  by apply (I6 k).
Qed.

End Quiet.

(** ** Keys under ms0:/PSP/GAME, and executables *)

Lemma unpopulated_raw g sl : unpopulated g → slot_data sl g = [].
Proof. intros ->. by destruct sl. Qed.

Lemma unpopulated_flushed g : unpopulated g → unpopulated (flushed g).
Proof. unfold unpopulated. intros ->. reflexivity. Qed.

Lemma unpopulated_time g t :
  unpopulated g → unpopulated (set_lastAccessedTime t g).
Proof. unfold unpopulated. intros ->. reflexivity. Qed.

Lemma unpopulated_fields g :
  unpopulated g →
  title g = "" ∧ paramSFO g = ∅ ∧ fileType g = FILETYPE_UNKNOWN ∧
  ∀ sl, slot_Empty sl g.
Proof. intros ->. repeat split; by destruct sl. Qed.


Lemma bare_executable_fields g :
  bare_executable g →
  title g = "" ∧ paramSFO g = ∅ ∧ (∀ sl, slot_Empty sl g) ∧
  (fileType g = FILETYPE_UNKNOWN ∨ fileType g = FILETYPE_PSP_ELF).
Proof.
  intros [Hk Hu]. apply unpopulated_fields in Hu as (Ht & Hp & _ & Hs).
  repeat split; try done; by destruct (Hs sl), sl.
Qed.

(** C7, as amended.  For a key that ends in .elf or .prx and does not start
    with ms0:/PSP/GAME, the loader is the single assignment of the kind:
    run on a Record it sets the kind to Executable and changes nothing
    else; and where the storage of a deleted Record is handed out again, if
    at all, only for the Record that replaces it in the same call, the
    Record held for such a key has in every state of the cache an empty
    title, an empty metadata table and three Empty slots (its kind being
    unset before the loader has run, Executable after). *)
Theorem executable_loader_sets_kind_only path :
  startsWith path "ms0:/PSP/GAME" = false →
  endsWith path ".elf" || endsWith path ".prx" = true →
  run env path = Do (SetFileType FILETYPE_PSP_ELF) Done ∧
  (∀ g, exec env (run env path) g = set_fileType FILETYPE_PSP_ELF g) ∧
  (reuse_in_place_only env →
   ∀ evs a, info_ (reach env evs) !! path = Some a →
     ∃ g, heap (reach env evs) !! a = Some g ∧
          title g = "" ∧ paramSFO g = ∅ ∧ (∀ sl, slot_Empty sl g) ∧
          (fileType g = FILETYPE_UNKNOWN ∨ fileType g = FILETYPE_PSP_ELF)).
Proof.
  intros Hpre Hsuf. rewrite (run_executable env path Hpre Hsuf).
  repeat split.
  intros Hnr evs a Ha.
  destruct (quiet_forever
    (fun k => startsWith k "ms0:/PSP/GAME" = false ∧
              endsWith k ".elf" || endsWith k ".prx" = true)
    (fun act => act = SetFileType FILETYPE_PSP_ELF) bare_executable)
    with (k := path) (evs := evs) (a := a) as (g & Hg & HR); try done.
  - intros k [H1 H2]. by rewrite (run_executable env k H1 H2).
  - intros w. split; [by left|reflexivity].
  - intros act g -> [_ Hu]. split; [by right|exact Hu].
  - intros g sl [_ Hu]. apply (unpopulated_raw _ sl) in Hu. by destruct sl.
  - intros g [Hk Hu]. split; [done|]. by apply unpopulated_flushed in Hu.
  - intros g t [Hk Hu]. split; [done|].
    by apply (unpopulated_time _ t) in Hu.
  - exists g. split; [done|]. by apply bare_executable_fields.
Qed.

(** ** Records that do not want backgrounds *)

Lemma guarded_run path : guarded (run env path).
Proof.
  unfold run, pbp_into, read_into.
  repeat case_match; simpl; repeat split; done.
Qed.

Lemma guarded_step_keeps p g p' g' :
  prog_step env p g = Some (p', g') →
  wantBG g' = wantBG g ∧
  (wantBG g = false → guarded p → no_background g →
   guarded p' ∧ no_background g').
Proof.
  destruct p as [|a k|kt kf]; simpl; intros H; [done| |].
  - injection H as <- <-.
    split; [apply apply_action_keeps|].
    intros _ (H0 & H1 & Hk) [E0 E1]. split; [done|].
    destruct (apply_action_slots env a g Pic0) as [Ht0 Hd0].
    destruct (apply_action_slots env a g Pic1) as [Ht1 Hd1].
    unfold no_background, slot_Empty.
    by rewrite Ht0, Ht1, (Hd0 H0), (Hd1 H1).
  - injection H as <- <-. split; [done|].
    intros -> Hg Hn. done.
Qed.

Lemma guarded_exec p : ∀ g,
  wantBG g = false → guarded p → no_background g →
  no_background (exec env p g).
Proof.
  induction p as [|a k IH|kt IHt kf IHf]; intros g Hw Hg Hn; simpl.
  - done.
  - destruct (guarded_step_keeps (Do a k) g k (apply_action env a g) eq_refl)
      as [Hw' H]. destruct (H Hw Hg Hn) as [Hk Hn'].
    apply IH; [congruence|done..].
  - rewrite Hw. by apply IHf.
Qed.

Lemma bg_inv_heap_change ts (h h' : gmap addr GameInfo) fr a F :
  (∀ b, h' !! b = if decide (a = b) then F <$> h !! b else h !! b) →
  (∀ g, wantBG (F g) = wantBG g) →
  (∀ g, h !! a = Some g → wantBG g = false → no_background g →
        no_background (F g)) →
  bg_inv ts h fr → bg_inv ts h' fr.
Proof.
  intros Hh HFw HFn (B1 & B2 & B3). split; [|split].
  - intros b g'. rewrite Hh. destruct (decide (a = b)) as [<-|]; [|apply B1].
    destruct (h !! a) as [g|] eqn:Hg; [|done]. intros [= <-].
    rewrite HFw. intros Hw. apply HFn; [done..|]. by apply (B1 a).
  - intros b p Hin. destruct (B2 b p Hin) as (g & Hg & Hgu).
    rewrite Hh. destruct (decide (a = b)) as [<-|]; [|by eauto].
    rewrite Hg. simpl. exists (F g). split; [done|]. by rewrite HFw.
  - intros b Hb. destruct (B3 b Hb) as (g & Hg & Hw).
    rewrite Hh. destruct (decide (a = b)) as [<-|]; [|by eauto].
    rewrite Hg. simpl. exists (F g). split; [done|]. by rewrite HFw.
Qed.

Local Abbreviation binv :=
  (fun s : State => bg_inv (tasks env s) (heap s) (freed s)).

Lemma no_background_decode sl now g tx :
  no_background g → no_background (decode_slot env sl now g tx).1.
Proof. intros [H0 H1]. split; by apply decode_slot_Empty. Qed.

Lemma binv_locked a body s :
  (∀ g tx, wantBG (body g tx).1 = wantBG g) →
  (∀ g tx, no_background g → no_background (body g tx).1) →
  binv s → binv (locked a body s).
Proof.
  intros Hw Hn Hs. unfold tasks.
  destruct (locked_frame a body s) as (_ & -> & -> & ->).
  apply (bg_inv_heap_change _ (heap s) _ _ a (fun g => (body g (tex s)).1));
    [apply locked_lookup|..|done].
  - intros g. apply Hw.
  - intros g _ _. apply Hn.
Qed.

Lemma binv_decode sl a now s :
  binv s → binv (locked a (decode_slot env sl now) s).
Proof.
  apply binv_locked.
  - intros g tx. apply decode_slot_wantBG.
  - intros g tx. apply no_background_decode.
Qed.

Lemma binv_fold_flush l : ∀ s,
  binv s → binv (foldl (fun s a => locked a flush_bg s) s l).
Proof.
  induction l as [|a l IH]; intros s Hs; simpl; [done|].
  apply IH, binv_locked; [..|done].
  - intros g tx. by rewrite flush_bg_fst.
  - intros g tx [H0 H1]. rewrite flush_bg_fst.
    split; by apply flushed_Empty.
Qed.

(** The new Record may take over the storage of a deleted one, and with it
    the loaders that outlived that one: they are guarded, as the deleted
    Record did not want backgrounds. *)
Lemma binv_again k w s : binv s → binv (again env k w s).2.
Proof.
  intros (B1 & B2 & B3).
  destruct (again_spec env k w s) as (_ & Ha & _ & Hh & Hq & Hw & Hf & _).
  set (a := new_storage env s) in *.
  assert (tasks env (again env k w s).2 = tasks env s ++ [(a, run env k)])
    as Ht.
  { unfold tasks. rewrite Hq, Hw, fmap_app. simpl. by rewrite (assoc_L (++)). }
  rewrite Ht, Hh, Hf. split; [|split].
  - intros b g. rewrite lookup_insert.
    destruct (decide (a = b)) as [<-|]; [|apply B1].
    by intros [= <-].
  - intros b p [Hin| [= -> ->]%list_elem_of_singleton]%elem_of_app.
    + destruct (B2 b p Hin) as (g & Hg & Hgu).
      rewrite lookup_insert. destruct (decide (a = b)) as [<-|]; [|by eauto].
      exists (set_wantBG w new_GameInfo). split; [done|]. intros _.
      apply Hgu.
      destruct (decide (a ∈ freed s)) as [Hfr|Hfr].
      * destruct (B3 a Hfr) as (g' & Hg' & Hw'). congruence.
      * exfalso. apply Ha. apply elem_of_dom_2 in Hg.
        unfold allocated. set_solver.
    + exists (set_wantBG w new_GameInfo).
      split; [by rewrite lookup_insert_eq|]. intros _. apply guarded_run.
  - intros b [Hb Hne]%elem_of_difference.
    destruct (B3 b Hb) as (g & Hg & Hwg). exists g. split; [|done].
    rewrite lookup_insert_ne; [done|]. set_solver.
Qed.

Lemma binv_delete_GameInfo a g s :
  heap s !! a = Some g → wantBG g = false →
  binv s → binv (delete_GameInfo a s).
Proof.
  intros Ha Hw (B1 & B2 & B3). split; [done|]. split; [done|].
  simpl. intros b [->%elem_of_singleton|Hb]%elem_of_union; [|by apply B3].
  by exists g.
Qed.

Lemma binv_touch a t s : binv s → binv (update a (set_lastAccessedTime t) s).
Proof.
  intros Hs.
  apply (bg_inv_heap_change _ (heap s) _ _ a (set_lastAccessedTime t));
    [apply update_lookup|done|..|done].
  by intros g _ _.
Qed.

Lemma binv_GetInfo k w clk s : binv s → binv (GetInfo env k w clk s).2.
Proof.
  intros Hs. unfold GetInfo.
  destruct (info_ s !! k) as [a|]; [|by apply binv_again].
  destruct (heap s !! a) as [g|] eqn:Ha; [|done].
  destruct (negb (wantBG g) && w) eqn:Hw.
  - apply binv_again, (binv_delete_GameInfo a g); [done| |done].
    by destruct (wantBG g).
  - cbn [snd]. apply binv_touch.
    apply (binv_decode Pic1), (binv_decode Pic0), (binv_decode Icon), Hs.
Qed.

Lemma tasks_start i s : tasks env (start env i s) ≡ₚ tasks env s.
Proof.
  unfold start. destruct (gameInfoWQ_ s !! i) as [item|] eqn:Hi; [|done].
  unfold tasks; simpl. rewrite <-(assoc_L (++)). simpl.
  apply Permutation_app_head.
  by rewrite (delete_Permutation (gameInfoWQ_ s) i item Hi) at 2.
Qed.

Lemma binv_start i s : binv s → binv (start env i s).
Proof.
  intros (B1 & B2 & B3). destruct (start_frame i s) as (-> & -> & _).
  split; [done|]. split; [|done].
  intros a p Hin. apply B2. by rewrite <-(tasks_start i s).
Qed.

Lemma binv_work j s : binv s → binv (work env j s).
Proof.
  intros Hs. pose proof Hs as (B1 & B2 & B3). unfold work.
  destruct (workers s !! j) as [[a p]|] eqn:Hj; [|done].
  destruct (heap s !! a) as [g|] eqn:Hg; [|done].
  assert (j < length (workers s)) as Hlen by (by eapply lookup_lt_Some).
  assert ((a, p) ∈ tasks env s) as Hin.
  { unfold tasks. apply elem_of_app. left. by eapply list_elem_of_lookup_2. }
  destruct (prog_step env p g) as [[p' g']|] eqn:Hstep.
  - destruct (guarded_step_keeps p g p' g' Hstep) as [Hw Hkeep].
    destruct (B2 a p Hin) as (g0 & Hg0 & Hgu).
    assert (g0 = g) as -> by congruence.
    unfold tasks. simpl. rewrite <-insert_app_l by done. fold (tasks env s).
    split; [|split].
    + intros b gb. rewrite lookup_insert.
      destruct (decide (a = b)) as [<-|]; [|apply B1].
      intros [= <-] Hw'. rewrite Hw in Hw'.
      apply Hkeep; [done|by apply Hgu|by apply (B1 a)].
    + intros b q [[= -> ->]|Hq]%elem_of_list_insert_inv.
      * exists g'. split; [by rewrite lookup_insert_eq|].
        intros Hw'. rewrite Hw in Hw'.
        apply Hkeep; [done|by apply Hgu|by apply (B1 a)].
      * destruct (B2 b q Hq) as (gb & Hgb & Hgub).
        rewrite lookup_insert. destruct (decide (a = b)) as [<-|]; [|by eauto].
        exists g'. split; [done|]. assert (gb = g) as -> by congruence.
        by rewrite Hw.
    + intros b Hb. destruct (B3 b Hb) as (gb & Hgb & Hwb).
      rewrite lookup_insert. destruct (decide (a = b)) as [<-|]; [|by eauto].
      exists g'. split; [done|]. assert (gb = g) as -> by congruence.
      by rewrite Hw.
  - simpl. split; [done|]. split; [|done]. intros b q Hq. apply B2.
    unfold tasks in *. simpl in Hq.
    apply elem_of_app in Hq as [Hq%list_elem_of_delete_inv|Hq];
      apply elem_of_app; [by left|by right].
Qed.

Lemma run_all_bg ts0 fr ts : ∀ h : gmap addr GameInfo,
  (∀ t, t ∈ ts → t ∈ ts0) → bg_inv ts0 h fr →
  bg_inv ts0 (foldl (fun h w => alter (exec env w.2) w.1 h) h ts) fr.
Proof.
  induction ts as [|[a p] ts IH]; intros h Hsub Hs; simpl; [done|].
  apply IH; [intros t Ht; apply Hsub; by right|].
  destruct Hs as (B1 & B2 & B3).
  destruct (B2 a p) as (g & Hg & Hgu); [apply Hsub; by left|].
  apply (bg_inv_heap_change _ h _ _ a (exec env p)); [..|done].
  - intros b. rewrite lookup_alter. by destruct (decide (a = b)) as [<-|].
  - intros g'. apply exec_wantBG.
  - intros g' Hg' Hw. assert (g' = g) as -> by congruence.
    apply guarded_exec; [done|by apply Hgu].
Qed.

Lemma binv_Clear s : binv s → binv (Clear env s).
Proof.
  intros Hs. unfold Clear. set (s1 := Flush env s).
  destruct (Flush_spec env s) as (Hh & Hw & Hq & _). fold s1 in Hh, Hw, Hq.
  destruct (Flush_frame s) as [_ Hf]. fold s1 in Hf.
  assert (binv s1) as Hs1.
  { unfold tasks. rewrite Hh, Hw, Hq, Hf. simpl.
    destruct (run_all_bg (tasks env s) (freed s) (tasks env s) (heap s))
      as (B1 & _ & B3); [done..|].
    split; [done|]. split; [|done]. by intros a p ?%elem_of_nil. }
  by apply (binv_fold_flush (records s1)) in Hs1.
Qed.

Lemma binv_reach evs : binv (reach env evs).
Proof.
  unfold reach.
  assert (binv init) as H0.
  { split; [intros a g; simpl; by rewrite lookup_empty|].
    split; [by intros a p ?%elem_of_nil|]. by intros a ?%elem_of_empty. }
  revert H0. generalize init.
  induction evs as [|e evs IH]; intros s Hs; simpl; [done|].
  apply IH. destruct e; simpl.
  - by apply binv_GetInfo.
  - by apply binv_fold_flush.
  - by apply binv_Clear.
  - by apply binv_start.
  - by apply binv_work.
  - by apply binv_decode.
Qed.

(** X4.  A Record that does not want backgrounds never gets any: in every
    state of the cache, under every interleaving, a Record whose [wantBG] is
    false has both background slots Empty (the loader tests [wantBG] before
    it reads a background, and nothing ever changes the flag). *)
Theorem no_background_unless_wanted evs a g :
  heap (reach env evs) !! a = Some g → wantBG g = false →
  slot_Empty Pic0 g ∧ slot_Empty Pic1 g.
Proof. intros Hg Hw. by apply (proj1 (binv_reach evs) a). Qed.

(** ** Handles are live textures *)

Ltac tex_body :=
  simpl; rewrite ?delete_Texture_deleted, ?delete_Texture_created; simpl;
  repeat split; try done; set_solver.

Lemma tex_safe_decode sl now : tex_safe (decode_slot env sl now).
Proof.
  intros g tx Hd Hl Hdc. pose proof (is_fresh (created tx)) as Hf.
  destruct g as [? ? ? di ti d0 t0 d1 t1 ? ? ? ? ?].
  unfold held, distinct_handles, live in *. simpl in *.
  destruct sl; simpl.
  - unfold decode_icon; simpl. destruct di; [tex_body|].
    destruct (LoadPNG env _); tex_body.
  - unfold decode_pic0; simpl. destruct d0; [tex_body|].
    destruct (LoadPNG env _); tex_body.
  - unfold decode_pic1; simpl. destruct d1; [tex_body|].
    destruct (LoadPNG env _); tex_body.
Qed.

Lemma tex_safe_flush : tex_safe flush_bg.
Proof.
  intros g tx Hd Hl Hdc.
  rewrite flush_bg_fst, flush_bg_snd.
  destruct g as [? ? ? di ti d0 t0 d1 t1 ? ? ? ? ?].
  unfold held, distinct_handles, live, flushed in *. simpl in *.
  tex_body.
Qed.

Lemma handles_held g g' :
  handles g = handles g' →
  held g = held g' ∧ (distinct_handles g → distinct_handles g').
Proof.
  unfold handles, held, distinct_handles. intros [= -> -> ->]. done.
Qed.

Lemma textures_inv_locked (h : gmap addr GameInfo) tx a g body :
  textures_inv h tx → h !! a = Some g → tex_safe body →
  textures_inv (<[a := (body g tx).1]> h) (body g tx).2.
Proof.
  intros (T0 & T1 & T3) Ha Hsafe.
  destruct (T1 a g Ha) as [Hl Hd].
  destruct (Hsafe g tx Hd Hl T0) as (C1 & C2 & C3 & C4 & C5 & C6 & C7).
  assert (∀ b gb, h !! b = Some gb → a ≠ b →
            held gb ⊆ live tx ∧ held gb ## held g) as Hother.
  { intros b gb Hb Hne. split; [by apply (T1 b)|].
    symmetry. by apply (T3 a b). }
  generalize dependent (body g tx). intros [g' tx'] C1 C2 C3 C4 C5 C6 C7.
  simpl in *. unfold live in *.
  destruct tx as [cr de], tx' as [cr' de']. simpl in *.
  clear Hsafe.
  split; [done|]. split.
  - intros b gb. rewrite lookup_insert.
    destruct (decide (a = b)) as [<-|Hne]; [by intros [= <-]|].
    intros Hb. destruct (Hother b gb Hb Hne) as [H1 H2].
    split; [|by apply (T1 b)]. clear -H1 H2 C1 C2 C7. set_solver.
  - intros b b' gb gb'. rewrite !lookup_insert.
    destruct (decide (a = b)) as [<-|Hb], (decide (a = b')) as [<-|Hb'];
      try done.
    + intros [= <-] Hgb' _. destruct (Hother b' gb' Hgb' Hb') as [H1 H2].
      clear -H1 H2 C6. set_solver.
    + intros Hgb [= <-] _. destruct (Hother b gb Hgb Hb) as [H1 H2].
      clear -H1 H2 C6. set_solver.
    + apply T3.
Qed.

Lemma textures_inv_view (h h' : gmap addr GameInfo) tx :
  (∀ b, handles <$> h' !! b = handles <$> h !! b) →
  textures_inv h tx → textures_inv h' tx.
Proof.
  intros Hv (T0 & T1 & T3).
  assert (∀ b g', h' !! b = Some g' →
            ∃ g, h !! b = Some g ∧ handles g = handles g') as Hback.
  { intros b g' Hb. specialize (Hv b). rewrite Hb in Hv. simpl in Hv.
    destruct (h !! b) as [g|]; simpl in Hv; [|done].
    exists g. split; [done|]. congruence. }
  split; [done|]. split.
  - intros b g' Hb. destruct (Hback b g' Hb) as (g & Hg & Hh).
    destruct (handles_held g g' Hh) as [<- Hd].
    destruct (T1 b g Hg). split; [done|by apply Hd].
  - intros b b' g' g2' Hb Hb' Hne.
    destruct (Hback b g' Hb) as (g & Hg & Hh).
    destruct (Hback b' g2' Hb') as (g2 & Hg2 & Hh2).
    destruct (handles_held g g' Hh) as [<- _].
    destruct (handles_held g2 g2' Hh2) as [<- _].
    by apply (T3 b b').
Qed.

Lemma textures_inv_new (h : gmap addr GameInfo) tx a g :
  handles g = (None, None, None) →
  textures_inv h tx → textures_inv (<[a := g]> h) tx.
Proof.
  intros Hg (T0 & T1 & T3).
  assert (held g = ∅ ∧ distinct_handles g) as [He Hd].
  { unfold handles, held, distinct_handles in *.
    injection Hg as -> -> ->. split; [set_solver|done]. }
  split; [done|]. split.
  - intros b gb. rewrite lookup_insert.
    destruct (decide (a = b)) as [<-|]; [|apply T1].
    intros [= <-]. split; [|done]. rewrite He. apply empty_subseteq.
  - intros b b' gb gb'. rewrite !lookup_insert.
    destruct (decide (a = b)) as [<-|], (decide (a = b')) as [<-|]; try done.
    + intros [= <-] _ _. rewrite He. apply disjoint_empty_l.
    + intros _ [= <-] _. rewrite He. apply disjoint_empty_r.
    + apply T3.
Qed.

Local Abbreviation tinv := (fun s : State => textures_inv (heap s) (tex s)).

Lemma tinv_locked a body s : tex_safe body → tinv s → tinv (locked a body s).
Proof.
  intros Hsafe Hs. unfold locked.
  destruct (heap s !! a) as [g|] eqn:Ha; [|done].
  pose proof (textures_inv_locked _ _ a g body Hs Ha Hsafe) as H.
  by destruct (body g (tex s)).
Qed.

Lemma tinv_fold_flush l : ∀ s,
  tinv s → tinv (foldl (fun s a => locked a flush_bg s) s l).
Proof.
  induction l as [|a l IH]; intros s Hs; simpl; [done|].
  apply IH, tinv_locked; [apply tex_safe_flush|done].
Qed.

Lemma tinv_update a F s :
  (∀ g, handles (F g) = handles g) → tinv s → tinv (update a F s).
Proof.
  intros HF Hs. simpl. eapply textures_inv_view; [|exact Hs].
  intros b. rewrite lookup_alter.
  destruct (decide (a = b)) as [<-|]; [|done].
  destruct (heap s !! a); simpl; [|done]. by rewrite HF.
Qed.

Lemma tinv_again k w s : tinv s → tinv (again env k w s).2.
Proof.
  intros Hs.
  destruct (again_spec env k w s) as (_ & _ & _ & -> & _ & _ & _ & ->).
  by apply textures_inv_new.
Qed.

Lemma tinv_GetInfo k w clk s : tinv s → tinv (GetInfo env k w clk s).2.
Proof.
  intros Hs. unfold GetInfo.
  destruct (info_ s !! k) as [a|]; [|by apply tinv_again].
  destruct (heap s !! a) as [g|]; [|done].
  destruct (negb (wantBG g) && w).
  - by apply tinv_again.
  - cbn [snd]. apply tinv_update; [done|].
    apply (tinv_locked a (decode_slot env Pic1 _)); [apply tex_safe_decode|].
    apply (tinv_locked a (decode_slot env Pic0 _)); [apply tex_safe_decode|].
    apply (tinv_locked a (decode_slot env Icon _)); [apply tex_safe_decode|].
    done.
Qed.

Lemma tinv_work j s : tinv s → tinv (work env j s).
Proof.
  intros Hs. unfold work.
  destruct (workers s !! j) as [[a p]|]; [|done].
  destruct (heap s !! a) as [g|] eqn:Hg; [|done].
  destruct (prog_step env p g) as [[p' g']|] eqn:Hstep; [|done].
  simpl. eapply textures_inv_view; [|exact Hs].
  intros b. rewrite lookup_insert.
  destruct (decide (a = b)) as [<-|]; [|done]. rewrite Hg. simpl. f_equal.
  destruct p as [|act k|kt kf]; simpl in Hstep; [done| |].
  - injection Hstep as <- <-. apply apply_action_keeps.
  - by injection Hstep as <- <-.
Qed.

Lemma run_all_view ts : ∀ (h : gmap addr GameInfo) b,
  handles <$> foldl (fun h w => alter (exec env w.2) w.1 h) h ts !! b
  = handles <$> h !! b.
Proof.
  induction ts as [|w ts IH]; intros h b; simpl; [done|].
  rewrite IH, lookup_alter.
  destruct (decide (w.1 = b)) as [<-|]; [|done].
  destruct (h !! w.1); simpl; [|done]. by rewrite exec_handles.
Qed.

Lemma tinv_Flush s : tinv s → tinv (Flush env s).
Proof.
  intros Hs. destruct (Flush_spec env s) as (-> & _ & _ & _ & ->).
  eapply textures_inv_view; [|exact Hs]. intros b. apply run_all_view.
Qed.

Lemma tinv_Clear s : tinv s → tinv (Clear env s).
Proof.
  intros Hs. unfold Clear. cbn [heap tex set_info_].
  by apply (tinv_fold_flush (records (Flush env s))), tinv_Flush.
Qed.

Lemma tinv_reach evs : tinv (reach env evs).
Proof.
  unfold reach.
  assert (tinv init) as H0.
  { simpl. split; [done|]. split; intros *; by rewrite lookup_empty. }
  revert H0. generalize init.
  induction evs as [|e evs IH]; intros s Hs; simpl; [done|].
  apply IH. destruct e as [k w clk| | |i|j|sl a now]; simpl.
  - by apply tinv_GetInfo.
  - by apply tinv_fold_flush.
  - by apply tinv_Clear.
  - destruct (start_frame i s) as (-> & _ & ->). done.
  - by apply tinv_work.
  - apply tinv_locked; [apply tex_safe_decode|done].
Qed.

(** X5.  In every state of the cache, every handle held in a slot of a
    Record is a texture that was created and not deleted, and no texture is
    held by two slots, of the same Record or of two Records: the decode
    blocks and the flush loops clear each handle they delete, so no Record
    is left pointing at a deleted texture. *)
Theorem handles_are_live evs a g sl t :
  heap (reach env evs) !! a = Some g → slot_texture sl g = Some t →
  t ∈ live (tex (reach env evs)) ∧
  ∀ a' g' sl', heap (reach env evs) !! a' = Some g' →
    slot_texture sl' g' = Some t → a' = a ∧ sl' = sl.
Proof.
  intros Hg Ht. destruct (tinv_reach evs) as (_ & T1 & T3).
  destruct (T1 a g Hg) as [Hl Hd].
  assert (∀ g0 sl0, slot_texture sl0 g0 = Some t → t ∈ held g0) as Hheld.
  { intros g0 [] H0; unfold held; simpl in H0; rewrite H0; set_solver. }
  split; [by apply Hl, (Hheld g sl)|].
  intros a' g' sl' Hg' Ht'.
  destruct (decide (a' = a)) as [->|Hne].
  - split; [done|]. assert (g' = g) as -> by congruence.
    destruct Hd as [Hd1 Hd2].
    destruct sl, sl'; simpl in *; try done; naive_solver.
  - exfalso. apply (T3 a' a g' g Hg' Hg Hne t);
      [by apply (Hheld g' sl')|by apply (Hheld g sl)].
Qed.

(** ** Lookups that find the Record *)

Lemma State_eq s s' :
  info_ s = info_ s' → gameInfoWQ_ s = gameInfoWQ_ s' →
  workers s = workers s' → heap s = heap s' → freed s = freed s' →
  tex s = tex s' → s = s'.
Proof. destruct s, s'; simpl. by intros -> -> -> -> -> ->. Qed.

Lemma locked_idle a body s g :
  heap s !! a = Some g → body g (tex s) = (g, tex s) → locked a body s = s.
Proof.
  intros Ha Hb. unfold locked. rewrite Ha, Hb.
  apply State_eq; simpl; try done. by apply insert_id.
Qed.

Lemma update_missing a f s : heap s !! a = None → update a f s = s.
Proof.
  intros Ha. apply State_eq; simpl; try done.
  apply map_eq; intros b. rewrite lookup_alter.
  destruct (decide (a = b)) as [<-|]; [|done]. by rewrite Ha.
Qed.

Lemma decode_slot_data sl sl' now g tx :
  slot_data sl' (decode_slot env sl now g tx).1
  = if decide (sl' = sl) then [] else slot_data sl' g.
Proof.
  destruct (decide (sl' = sl)) as [->|Hne]; [apply decode_slot_clears|].
  destruct sl; simpl;
    [unfold decode_icon; destruct (iconTextureData g)
    |unfold decode_pic0; destruct (pic0TextureData g)
    |unfold decode_pic1; destruct (pic1TextureData g)];
    simpl; try done; destruct (LoadPNG env _); by destruct sl'.
Qed.

(** The Record a hit leaves behind: the old one, put through the three
    decode sections and stamped with the access time. *)
Lemma GetInfo_hit_cell k w clk s a g :
  info_ s !! k = Some a → heap s !! a = Some g →
  negb (wantBG g) && w = false →
  let r := GetInfo env k w clk s in
  r.1 = a ∧ info_ r.2 = info_ s ∧ gameInfoWQ_ r.2 = gameInfoWQ_ s ∧
  workers r.2 = workers s ∧ freed r.2 = freed s ∧
  ∃ tx1 tx2 tx3,
    heap r.2 !! a
    = Some (set_lastAccessedTime (now_access clk)
        (decode_slot env Pic1 (now_pic1 clk)
          (decode_slot env Pic0 (now_pic0 clk)
            (decode_slot env Icon (now_icon clk) g tx1).1 tx2).1 tx3).1).
Proof.
  intros Hk Ha Hw r. subst r. unfold GetInfo. rewrite Hk, Ha, Hw.
  cbn [fst snd].
  set (s1 := locked a (decode_icon env (now_icon clk)) s).
  set (s2 := locked a (decode_pic0 env (now_pic0 clk)) s1).
  set (s3 := locked a (decode_pic1 env (now_pic1 clk)) s2).
  destruct (locked_frame a (decode_icon env (now_icon clk)) s)
    as (I1 & Q1 & W1 & F1).
  destruct (locked_frame a (decode_pic0 env (now_pic0 clk)) s1)
    as (I2 & Q2 & W2 & F2).
  destruct (locked_frame a (decode_pic1 env (now_pic1 clk)) s2)
    as (I3 & Q3 & W3 & F3).
  fold s1 in I1, Q1, W1, F1. fold s2 in I2, Q2, W2, F2.
  fold s3 in I3, Q3, W3, F3.
  split; [done|]. split; [simpl; congruence|]. split; [simpl; congruence|].
  split; [simpl; congruence|]. split; [simpl; congruence|].
  exists (tex s), (tex s1), (tex s2).
  rewrite update_lookup, decide_True by done. unfold s3, s2, s1.
  rewrite !locked_lookup, !decide_True by done. by rewrite Ha.
Qed.

Lemma GetInfo_leaves_no_raw k w clk s :
  let r := GetInfo env k w clk s in
  info_ r.2 !! k = Some r.1 ∧
  match heap r.2 !! r.1 with
  | Some g => (∀ sl, slot_data sl g = []) ∧ negb (wantBG g) && w = false
  | None => True
  end.
Proof.
  intros r. split; [apply GetInfo_entry|].
  assert (∀ s', match heap (again env k w s').2 !! (again env k w s').1 with
                | Some g => (∀ sl, slot_data sl g = []) ∧
                            negb (wantBG g) && w = false
                | None => True
                end) as Hagain.
  { intros s'. simpl. rewrite lookup_insert_eq. split; [by intros []|].
    simpl. by destruct w. }
  subst r. unfold GetInfo at 1 2.
  destruct (info_ s !! k) as [a|] eqn:Hk; [|apply Hagain].
  destruct (heap s !! a) as [g|] eqn:Ha; [|cbn [fst snd]; by rewrite Ha].
  destruct (negb (wantBG g) && w) eqn:Hw; [apply Hagain|].
  destruct (GetInfo_hit_cell k w clk s a g Hk Ha Hw)
    as (_ & _ & _ & _ & _ & tx1 & tx2 & tx3 & Hcell).
  unfold GetInfo in Hcell. rewrite Hk, Ha, Hw in Hcell.
  cbn [fst snd] in *. rewrite Hcell. split.
  - intros sl.
    change (slot_data sl (set_lastAccessedTime ?t ?x)) with (slot_data sl x).
    rewrite !decode_slot_data. by destruct sl.
  - change (wantBG (set_lastAccessedTime ?t ?x)) with (wantBG x).
    by rewrite !decode_slot_wantBG.
Qed.

Lemma GetInfo_on_decoded k w clk s a :
  info_ s !! k = Some a →
  match heap s !! a with
  | Some g => (∀ sl, slot_data sl g = []) ∧ negb (wantBG g) && w = false
  | None => True
  end →
  GetInfo env k w clk s
  = (a, update a (set_lastAccessedTime (now_access clk)) s).
Proof.
  intros Hk H. unfold GetInfo. rewrite Hk.
  destruct (heap s !! a) as [g|] eqn:Ha.
  - destruct H as [Hraw ->].
    rewrite (locked_idle a (decode_icon env _) s g Ha)
      by apply (decode_slot_idle env Icon), (Hraw Icon).
    rewrite (locked_idle a (decode_pic0 env _) s g Ha)
      by apply (decode_slot_idle env Pic0), (Hraw Pic0).
    rewrite (locked_idle a (decode_pic1 env _) s g Ha)
      by apply (decode_slot_idle env Pic1), (Hraw Pic1).
    done.
  - by rewrite update_missing.
Qed.

(** X6.  Looking a key up twice in a row with the same flag: the second
    call returns the Record of the first and changes nothing but its access
    time; it decodes nothing, creates no texture and queues no loader,
    whatever the first call did (create, escalate or decode). *)
Theorem GetInfo_twice k w clk1 clk2 s :
  let r1 := GetInfo env k w clk1 s in
  GetInfo env k w clk2 r1.2
  = (r1.1, update r1.1 (set_lastAccessedTime (now_access clk2)) r1.2).
Proof.
  intros r1. destruct (GetInfo_leaves_no_raw k w clk1 s) as [Hk H].
  by apply GetInfo_on_decoded.
Qed.

Lemma GetInfo_false_on_entry k clk s a :
  info_ s !! k = Some a →
  let r := GetInfo env k false clk s in
  r.1 = a ∧ info_ r.2 = info_ s ∧ gameInfoWQ_ r.2 = gameInfoWQ_ s ∧
  workers r.2 = workers s ∧ freed r.2 = freed s ∧
  dom (heap r.2) = dom (heap s).
Proof.
  intros Hk r. destruct (heap s !! a) as [g|] eqn:Ha.
  - destruct (GetInfo_hit_cell k false clk s a g Hk Ha (andb_false_r _))
      as (H1 & H2 & H3 & H4 & H5 & _).
    repeat split; try done.
    subst r. unfold GetInfo. rewrite Hk, Ha, andb_false_r. cbn [snd].
    by rewrite update_dom, !locked_dom.
  - subst r. unfold GetInfo. by rewrite Hk, Ha.
Qed.

(** X7.  No downgrade: after [GetInfo(k, true)], a call [GetInfo(k, false)]
    returns the same Record; the map, the queue of loaders and the set of
    deleted Records are as the first call left them. *)
Theorem GetInfo_without_backgrounds_keeps_record k clk1 clk2 s :
  let r1 := GetInfo env k true clk1 s in
  let r2 := GetInfo env k false clk2 r1.2 in
  r2.1 = r1.1 ∧ info_ r2.2 = info_ r1.2 ∧
  gameInfoWQ_ r2.2 = gameInfoWQ_ r1.2 ∧ workers r2.2 = workers r1.2 ∧
  freed r2.2 = freed r1.2.
Proof.
  intros r1 r2.
  destruct (GetInfo_false_on_entry k clk2 r1.2 r1.1 (GetInfo_entry env k true clk1 s))
    as (? & ? & ? & ? & ? & _).
  done.
Qed.

(** ** [FlushBGs] and [Clear], once more *)

Lemma Textures_eq tx tx' :
  created tx = created tx' → deleted tx = deleted tx' → tx = tx'.
Proof. destruct tx, tx'; simpl. by intros -> ->. Qed.

Lemma bg_handles_view (h h' : gmap addr GameInfo) l :
  (∀ b, handles <$> h' !! b = handles <$> h !! b) →
  bg_handles h' l = bg_handles h l.
Proof.
  intros Hv. unfold bg_handles. f_equal. apply list_fmap_ext.
  intros _ a _. specialize (Hv a).
  destruct (h' !! a) as [g'|], (h !! a) as [g|]; simpl in *; try done.
  unfold handles, bg_handles_of in *. by injection Hv as _ -> ->.
Qed.

Lemma bg_handles_flushed (h : gmap addr GameInfo) l :
  (∀ a, a ∈ l → ∃ o, h !! a = flushed <$> o) → bg_handles h l = ∅.
Proof.
  intros H. apply set_eq; intros t. rewrite elem_of_bg_handles.
  split; [|set_solver]. intros (a & g & Ha & Hg & Ht).
  destruct (H a Ha) as [[g0|] Ho]; rewrite Ho in Hg; [|done].
  injection Hg as <-. by rewrite bg_handles_of_flushed in Ht.
Qed.

(** X8.  [FlushBGs] is idempotent: a second call right after a first one
    leaves the whole state, Records and textures, as the first left it. *)
Theorem FlushBGs_idempotent s : FlushBGs (FlushBGs s) = FlushBGs s.
Proof.
  set (s1 := FlushBGs s).
  assert (records s1 = records s) as Hrec.
  { unfold records, s1. by rewrite FlushBGs_info_. }
  unfold FlushBGs at 1. rewrite Hrec.
  destruct (fold_locked_frame flush_bg (records s) s1) as (? & ? & ? & ? & _).
  destruct (fold_flush_tex (records s) s1) as [Hc Hd].
  assert (∀ a, heap s1 !! a
               = if decide (a ∈ records s) then flushed <$> heap s !! a
                 else heap s !! a) as Hh1 by apply fold_flush_lookup.
  apply State_eq; try done.
  - apply map_eq; intros a. rewrite fold_flush_lookup, Hh1.
    destruct (decide (a ∈ records s)); [|done].
    by destruct (heap s !! a).
  - apply Textures_eq; [done|]. rewrite Hd.
    rewrite bg_handles_flushed; [set_solver|].
    intros a Ha. exists (heap s !! a). by rewrite Hh1, decide_True.
Qed.

Lemma Clear_records s :
  (∀ a, handles <$> heap (Clear env s) !! a
        = (if decide (a ∈ records s)
           then fun g => (iconTexture g, None, None) else handles)
          <$> heap s !! a) ∧
  created (tex (Clear env s)) = created (tex s) ∧
  deleted (tex (Clear env s))
  = deleted (tex s) ∪ bg_handles (heap s) (records s).
Proof.
  repeat split.
  - intros a. unfold Clear. cbn [heap set_info_].
    set (s1 := Flush env s).
    destruct (Flush_spec env s) as (Hh1 & _ & _ & Hi1 & _). fold s1 in Hh1, Hi1.
    assert (records s1 = records s) as -> by (unfold records; by rewrite Hi1).
    rewrite fold_flush_lookup.
    pose proof (run_all_view (tasks env s) (heap s) a) as Hv.
    rewrite <-Hh1 in Hv.
    destruct (decide (a ∈ records s)); [|done].
    destruct (heap s1 !! a) as [g1|], (heap s !! a) as [g|];
      simpl in *; try done.
    unfold handles in *. simpl. by injection Hv as -> _ _.
  - unfold Clear. cbn [tex set_info_].
    rewrite (proj1 (fold_flush_tex _ _)).
    by rewrite (proj2 (proj2 (proj2 (proj2 (Flush_spec env s))))).
  - unfold Clear. cbn [tex set_info_].
    set (s1 := Flush env s).
    destruct (Flush_spec env s) as (Hh1 & _ & _ & Hi1 & Ht1).
    fold s1 in Hh1, Hi1, Ht1.
    rewrite (proj2 (fold_flush_tex _ _)), Ht1.
    assert (records s1 = records s) as -> by (unfold records; by rewrite Hi1).
    f_equal. apply bg_handles_view. intros b. rewrite Hh1.
    apply run_all_view.
Qed.

(** X9.  What [Clear] does, for every state: the map, the queue and the
    workers end up empty and no Record is deleted; of the handles of each
    Record that some key of the map pointed to, the two background handles
    are cleared and the icon handle is kept; a Record no key pointed to
    keeps its handles; no texture is created, and the textures deleted are
    exactly the background handles of the Records the keys pointed to. *)
Theorem Clear_spec s :
  info_ (Clear env s) = ∅ ∧ gameInfoWQ_ (Clear env s) = [] ∧
  workers (Clear env s) = [] ∧ freed (Clear env s) = freed s ∧
  dom (heap (Clear env s)) = dom (heap s) ∧
  (∀ k a, info_ s !! k = Some a →
     handles <$> heap (Clear env s) !! a
     = (fun g => (iconTexture g, None, None)) <$> heap s !! a) ∧
  (∀ a, (∀ k, info_ s !! k ≠ Some a) →
     handles <$> heap (Clear env s) !! a = handles <$> heap s !! a) ∧
  created (tex (Clear env s)) = created (tex s) ∧
  (∀ t, t ∈ deleted (tex (Clear env s)) ↔
        t ∈ deleted (tex s) ∨
        ∃ k a g, info_ s !! k = Some a ∧ heap s !! a = Some g ∧
                 (pic0Texture g = Some t ∨ pic1Texture g = Some t)).
Proof.
  destruct (Clear_frame s) as (Hi & Hq & Hw & Hf & Hd).
  destruct (Clear_records s) as (Hh & Hc & Hdel).
  repeat split; try done.
  - intros k a Hk. rewrite Hh, decide_True; [done|].
    apply elem_of_records. eauto.
  - intros a Hno. rewrite Hh, decide_False; [done|].
    intros (k & Hk)%elem_of_records. by apply (Hno k).
  - rewrite Hdel, elem_of_union, elem_of_bg_handles.
    intros [Ht|(a & g & (k & Hk)%elem_of_records & Hg & Ht)]; [by left|].
    right. exists k, a, g. split; [done|]. split; [done|].
    apply bg_handles_of_spec, Ht.
  - rewrite Hdel, elem_of_union, elem_of_bg_handles.
    intros [Ht|(k & a & g & Hk & Hg & Ht)]; [by left|].
    right. exists a, g. split; [apply elem_of_records; eauto|].
    split; [done|]. by apply bg_handles_of_spec.
Qed.

(** X10.  After [Clear], every lookup starts over: [GetInfo] finds nothing,
    even for a key that was cached, and returns a new Record, unpopulated,
    with one loader queued for it and nothing else in the map or the queue.
    Its storage is none that holds a Record that was not deleted: [Clear]
    deletes no Record, so the Records the map held are not overwritten. *)
Theorem GetInfo_after_Clear k w clk s :
  let r := GetInfo env k w clk (Clear env s) in
  (r.1 ∉ dom (heap s) ∖ freed s) ∧
  heap r.2 = <[r.1 := set_wantBG w new_GameInfo]> (heap (Clear env s)) ∧
  info_ r.2 = {[k := r.1]} ∧
  gameInfoWQ_ r.2 = [{| gamePath_ := k; item_info_ := r.1 |}] ∧
  workers r.2 = [].
Proof.
  intros r. destruct (Clear_frame s) as (Hi & Hq & Hw & Hf & Hd).
  subst r. unfold GetInfo. rewrite Hi, lookup_empty.
  destruct (again_spec env k w (Clear env s))
    as (-> & Ha & -> & -> & -> & -> & _).
  unfold allocated in Ha. rewrite Hf, Hd in Ha.
  rewrite Hi, Hq, Hw, insert_empty. done.
Qed.


(** ** The loaders, case by case *)

(** X13.  An invalid PBP: the loader returns before any write, the kind
    included, and changes no Record it is run on; and where the storage of
    a deleted Record is handed out again, if at all, only for the Record
    that replaces it in the same call, the Record held for such a key is in
    every state of the cache as constructed, but for [wantBG] and the access
    time. *)
Theorem invalid_PBP_loader_does_nothing path :
  startsWith path "ms0:/PSP/GAME" = false →
  endsWith path ".PBP" = true →
  PBP_IsValid env path = false →
  run env path = Done ∧
  (∀ g, exec env (run env path) g = g) ∧
  (reuse_in_place_only env →
   ∀ evs a, info_ (reach env evs) !! path = Some a →
     ∃ g, heap (reach env evs) !! a = Some g ∧ unpopulated g).
Proof.
  intros H1 H2 H3.
  assert (∀ k, startsWith k "ms0:/PSP/GAME" = false ∧
               endsWith k ".PBP" = true ∧ PBP_IsValid env k = false →
               run env k = Done) as Hrun.
  { intros k (K1 & K2 & K3). unfold run. by rewrite K1, K2, K3. }
  rewrite (Hrun path) by done. repeat split.
  intros Hnr evs a Ha.
  apply (quiet_forever
           (fun k => startsWith k "ms0:/PSP/GAME" = false ∧
                     endsWith k ".PBP" = true ∧ PBP_IsValid env k = false)
           (fun _ => False) unpopulated) with (k := path);
    try done.
  - intros k Hk. by rewrite (Hrun k Hk).
  - intros g sl. apply unpopulated_raw.
  - apply unpopulated_flushed.
  - intros g t. apply unpopulated_time.
Qed.


Lemma exec_slot_writes p : ∀ g,
  all_actions slot_write p →
  title (exec env p g) = title g ∧ paramSFO (exec env p g) = paramSFO g ∧
  fileType (exec env p g) = fileType g.
Proof.
  induction p as [|a k IH|kt IHt kf IHf]; intros g Hall; simpl.
  - done.
  - destruct Hall as [Ha Hk]. destruct (IH (apply_action env a g) Hk)
      as (-> & -> & ->).
    destruct a as [t|d|sl d|sl n d]; try (by destruct Ha as [? [=]]);
      by destruct sl.
  - destruct Hall. destruct (wantBG g); [by apply IHt|by apply IHf].
Qed.

(** X15.  A disc image without PARAM.SFO: the loader sets the kind and
    leaves the title and the metadata table as they were, whatever else the
    image holds; the missing file is not an error. *)
Theorem disc_without_metadata path bd g :
  startsWith path "ms0:/PSP/GAME" = false →
  endsWith path ".PBP" = false →
  endsWith path ".elf" || endsWith path ".prx" = false →
  constructBlockDevice env path = Some bd →
  exists_ (GetFileInfo env bd "/PSP_GAME/PARAM.SFO") = false →
  fileType (exec env (run env path) g) = FILETYPE_PSP_ISO ∧
  title (exec env (run env path) g) = title g ∧
  paramSFO (exec env (run env path) g) = paramSFO g.
Proof.
  intros H1 H2 H3 H4 H5. unfold run. rewrite H1, H2, H3, H4.
  assert (ReadFileToString env bd "/PSP_GAME/PARAM.SFO" = None) as ->.
  { unfold ReadFileToString. by rewrite H5. }
  cbn [exec].
  edestruct exec_slot_writes as (-> & -> & ->); [|done].
  unfold read_into. repeat case_match; simpl; repeat split;
    by eexists.
Qed.

(** ** What the decode sections leave alone *)

(** X16.  A decode section touches nothing but raw buffers, handles and the
    timestamp of its own slot: title, metadata, kind, [wantBG] and access
    time are kept, the timestamps of the other slots are kept, and the
    timestamp of the slot itself is set to the reading of the clock exactly
    when there were raw bytes and they decoded. *)
Theorem decode_slot_frame sl now g tx :
  let r := decode_slot env sl now g tx in
  title r.1 = title g ∧ paramSFO r.1 = paramSFO g ∧
  fileType r.1 = fileType g ∧ wantBG r.1 = wantBG g ∧
  lastAccessedTime r.1 = lastAccessedTime g ∧
  (∀ sl', sl' ≠ sl → slot_time sl' r.1 = slot_time sl' g) ∧
  slot_time sl r.1
  = (if decide (slot_data sl g = []) then slot_time sl g
     else if LoadPNG env (slot_data sl g) then now else slot_time sl g).
Proof.
  intros r. subst r.
  destruct sl; simpl;
    [unfold decode_icon; destruct (iconTextureData g) eqn:E
    |unfold decode_pic0; destruct (pic0TextureData g) eqn:E
    |unfold decode_pic1; destruct (pic1TextureData g) eqn:E];
    simpl; rewrite ?E; try (repeat split; done);
    destruct (LoadPNG env _); simpl; repeat split; try done;
    by intros [].
Qed.

(** ** Escalation, in full *)

(** X18.  An escalating lookup ([GetInfo(k, true)] on a Record with
    [wantBG] false) deletes the Record and returns a new one, unpopulated
    and wanting backgrounds, which it puts in the map in place of the old
    one and for which it queues one loader.  The storage of the new Record
    is none that holds a Record that was not deleted; it can be the storage
    of the Record just deleted, and when it is not, the content of that
    storage is left as it was.  The textures are left alone, so the decoded
    handles of the old Record are not released, and the loaders queued
    before stay queued, also those bound to the deleted Record. *)
Theorem GetInfo_escalation k clk s a g :
  info_ s !! k = Some a → heap s !! a = Some g → wantBG g = false →
  let r := GetInfo env k true clk s in
  (r.1 ∉ dom (heap s) ∖ ({[a]} ∪ freed s)) ∧
  info_ r.2 = <[k := r.1]> (info_ s) ∧
  heap r.2 = <[r.1 := set_wantBG true new_GameInfo]> (heap s) ∧
  (r.1 ≠ a → heap r.2 !! a = Some g) ∧
  freed r.2 = ({[a]} ∪ freed s) ∖ {[r.1]} ∧
  tex r.2 = tex s ∧
  gameInfoWQ_ r.2
  = gameInfoWQ_ s ++ [{| gamePath_ := k; item_info_ := r.1 |}] ∧
  workers r.2 = workers s.
Proof.
  intros Hk Ha Hw r. subst r. unfold GetInfo. rewrite Hk, Ha, Hw.
  cbn [negb andb].
  destruct (again_spec env k true (delete_GameInfo a s))
    as (-> & Hnew & -> & -> & -> & -> & -> & ->).
  split; [exact Hnew|].
  repeat split. intros Hne. simpl. by rewrite lookup_insert_ne.
Qed.

(** ** A disc image, in full *)

(** X19.  A disc image whose block device opens: the loader sets the kind;
    each of the four files is copied when [ReadFileToString] finds and
    opens it and is skipped otherwise; the title is taken from the parsed
    PARAM.SFO; the two backgrounds are read only when the Record wants
    backgrounds. *)
Theorem valid_disc_loader path bd g :
  startsWith path "ms0:/PSP/GAME" = false →
  endsWith path ".PBP" = false →
  endsWith path ".elf" || endsWith path ".prx" = false →
  constructBlockDevice env path = Some bd →
  let g' := exec env (run env path) g in
  let file sl name :=
    match ReadFileToString env bd name with
    | Some (n, data) => resize_and_read n data (slot_data sl g)
    | None => slot_data sl g
    end in
  fileType g' = FILETYPE_PSP_ISO ∧
  paramSFO g'
  = match ReadFileToString env bd "/PSP_GAME/PARAM.SFO" with
    | Some (n, data) => ReadSFO env (resize_and_read n data []) (paramSFO g)
    | None => paramSFO g
    end ∧
  title g'
  = match ReadFileToString env bd "/PSP_GAME/PARAM.SFO" with
    | Some _ => GetValueString (paramSFO g') "TITLE"
    | None => title g
    end ∧
  iconTextureData g' = file Icon "/PSP_GAME/ICON0.PNG" ∧
  pic0TextureData g'
  = (if wantBG g then file Pic0 "/PSP_GAME/PIC0.PNG"
     else pic0TextureData g) ∧
  pic1TextureData g'
  = (if wantBG g then file Pic1 "/PSP_GAME/PIC1.PNG"
     else pic1TextureData g).
Proof.
  intros H1 H2 H3 H4 g' file. subst g' file.
  unfold run. rewrite H1, H2, H3, H4. unfold read_into.
  destruct (ReadFileToString env bd "/PSP_GAME/PARAM.SFO") as [[n0 m0]|];
  destruct (ReadFileToString env bd "/PSP_GAME/ICON0.PNG") as [[n1 m1]|];
  destruct (ReadFileToString env bd "/PSP_GAME/PIC0.PNG") as [[n2 m2]|];
  destruct (ReadFileToString env bd "/PSP_GAME/PIC1.PNG") as [[n3 m3]|];
  destruct (wantBG g) eqn:Hw; simpl; rewrite ?Hw; simpl; done.
Qed.

End MoreProperties.

(** ** The further properties at concrete inputs *)


Lemma executable_loader_sets_kind_only_witness :
  let evs := [EGetInfo "a.elf" false (clock 1);
              EGetInfo "a.elf" true (clock 2); EStart 0; EWork 0;
              EGetInfo "a.elf" true (clock 3)] in
  info_ (reach reusing_world evs) !! "a.elf" = Some 0 ∧
  exec reusing_world (run reusing_world "a.elf") new_GameInfo
  = set_fileType FILETYPE_PSP_ELF new_GameInfo ∧
  ∃ g, heap (reach reusing_world evs) !! 0 = Some g ∧
       title g = "" ∧ paramSFO g = ∅ ∧ (∀ sl, slot_Empty sl g) ∧
       (fileType g = FILETYPE_UNKNOWN ∨ fileType g = FILETYPE_PSP_ELF).
Proof.
  intros evs.
  destruct (executable_loader_sets_kind_only reusing_world "a.elf"
              eq_refl eq_refl) as (_ & Hexec & Hever).
  split; [vm_compute; reflexivity|]. split; [apply Hexec|].
  apply (Hever (reuse_in_place_allowed world)). vm_compute; reflexivity.
Defined.

(** After an escalation the map holds the new Record only. *)
Lemma map_never_dangles_witness :
  let evs := [EGetInfo "a.elf" false (clock 1);
              EGetInfo "a.elf" true (clock 2)] in
  info_ (reach world evs) !! "a.elf" = Some 1 ∧
  is_Some (heap (reach world evs) !! 1) ∧
  (1 ∉ freed (reach world evs)) ∧
  ∀ k', info_ (reach world evs) !! k' = Some 1 → k' = "a.elf".
Proof.
  intros evs.
  assert (info_ (reach world evs) !! "a.elf" = Some 1) as H
    by (vm_compute; reflexivity).
  split; [exact H|]. exact (map_never_dangles world evs "a.elf" 1 H).
Defined.

(** A PBP looked up without backgrounds, loaded and decoded. *)
Lemma no_background_unless_wanted_witness :
  let evs := [EGetInfo "a.PBP" false (clock 1); EStart 0;
              EWork 0; EWork 0; EWork 0; EWork 0; EWork 0;
              EGetInfo "a.PBP" false (clock 2)] in
  ∃ g, heap (reach world evs) !! 0 = Some g ∧ wantBG g = false ∧
       iconTexture g = Some 0 ∧
       slot_Empty Pic0 g ∧ slot_Empty Pic1 g.
Proof.
  intros evs.
  destruct (heap (reach world evs) !! 0) as [g|] eqn:Hg;
    [|by vm_compute in Hg].
  assert (wantBG g = false ∧ iconTexture g = Some 0) as [Hw Hi].
  { pose proof Hg as Hg'. vm_compute in Hg'. injection Hg' as <-.
    repeat split. }
  exists g. split; [done|]. split; [done|]. split; [done|].
  exact (no_background_unless_wanted world evs 0 g Hg Hw).
Defined.

Lemma handles_are_live_witness :
  let evs := [EGetInfo "a.PBP" false (clock 1); EStart 0;
              EWork 0; EWork 0; EWork 0; EWork 0; EWork 0;
              EGetInfo "a.PBP" false (clock 2)] in
  ∃ g, heap (reach world evs) !! 0 = Some g ∧
       slot_texture Icon g = Some 0 ∧
       0 ∈ live (tex (reach world evs)) ∧
       ∀ a' g' sl', heap (reach world evs) !! a' = Some g' →
         slot_texture sl' g' = Some 0 → a' = 0 ∧ sl' = Icon.
Proof.
  intros evs.
  destruct (heap (reach world evs) !! 0) as [g|] eqn:Hg;
    [|by vm_compute in Hg].
  assert (slot_texture Icon g = Some 0) as Hi.
  { pose proof Hg as Hg'. vm_compute in Hg'. injection Hg' as <-.
    repeat split. }
  exists g. split; [done|]. split; [done|].
  exact (handles_are_live world evs 0 g Icon 0 Hg Hi).
Defined.


Lemma invalid_PBP_loader_does_nothing_witness :
  let evs := [EGetInfo "x.PBP" true (clock 1); EStart 0; EWork 0;
              EGetInfo "x.PBP" true (clock 2)] in
  PBP_IsValid disc_world "x.PBP" = false ∧
  info_ (reach disc_world evs) !! "x.PBP" = Some 0 ∧
  run disc_world "x.PBP" = Done ∧
  ∃ g, heap (reach disc_world evs) !! 0 = Some g ∧ unpopulated g.
Proof.
  intros evs.
  destruct (invalid_PBP_loader_does_nothing disc_world "x.PBP"
              eq_refl eq_refl eq_refl) as (Hrun & _ & Hever).
  split; [reflexivity|]. split; [vm_compute; reflexivity|].
  split; [exact Hrun|].
  apply (Hever (no_reuse_in_place _ disc_world_no_reuse)).
  vm_compute; reflexivity.
Defined.


Lemma disc_without_metadata_witness :
  let g' := exec disc_world (run disc_world "g.iso") new_GameInfo in
  exists_ (GetFileInfo disc_world tt "/PSP_GAME/PARAM.SFO") = false ∧
  fileType g' = FILETYPE_PSP_ISO ∧ title g' = "" ∧ paramSFO g' = ∅ ∧
  iconTextureData g' = [x05; x06].
Proof.
  split; [reflexivity|].
  destruct (disc_without_metadata disc_world "g.iso" tt new_GameInfo
              eq_refl eq_refl eq_refl eq_refl eq_refl) as (H1 & H2 & H3).
  split; [exact H1|]. split; [exact H2|]. split; [exact H3|].
  vm_compute. reflexivity.
Defined.

(** An escalation where the allocator hands the deleted storage out again:
    the new Record is where the old one was. *)
Lemma GetInfo_escalation_witness :
  let env := reusing_world in
  let s := (GetInfo env "a.elf" false (clock 1) init).2 in
  let g := set_wantBG false new_GameInfo in
  let r := GetInfo env "a.elf" true (clock 2) s in
  info_ s !! "a.elf" = Some 0 ∧ heap s !! 0 = Some g ∧ r.1 = 0 ∧
  (r.1 ∉ dom (heap s) ∖ ({[0]} ∪ freed s)) ∧
  info_ r.2 = <["a.elf" := r.1]> (info_ s) ∧
  heap r.2 = <[r.1 := set_wantBG true new_GameInfo]> (heap s) ∧
  (r.1 ≠ 0 → heap r.2 !! 0 = Some g) ∧
  freed r.2 = ({[0]} ∪ freed s) ∖ {[r.1]} ∧
  tex r.2 = tex s ∧
  gameInfoWQ_ r.2
  = gameInfoWQ_ s ++ [{| gamePath_ := "a.elf"; item_info_ := r.1 |}] ∧
  workers r.2 = workers s.
Proof.
  intros env s g r.
  assert (info_ s !! "a.elf" = Some 0) as H1 by (vm_compute; reflexivity).
  assert (heap s !! 0 = Some g) as H2 by (vm_compute; reflexivity).
  split; [exact H1|]. split; [exact H2|].
  split; [vm_compute; reflexivity|].
  exact (GetInfo_escalation env "a.elf" (clock 2) s 0 g H1 H2 eq_refl).
Defined.

Lemma valid_disc_loader_witness :
  let g := set_wantBG true new_GameInfo in
  let g' := exec disc_world (run disc_world "g.iso") g in
  fileType g' = FILETYPE_PSP_ISO ∧ paramSFO g' = ∅ ∧ title g' = "" ∧
  iconTextureData g' = [x05; x06] ∧
  pic0TextureData g' = [x05; x06] ∧
  pic1TextureData g' = [x05; x06].
Proof.
  exact (valid_disc_loader disc_world "g.iso" tt
           (set_wantBG true new_GameInfo)
           eq_refl eq_refl eq_refl eq_refl).
Defined.

